(** * The evt contract handlers (libraries/chain/contracts/evt_contract.cpp)

    A shallow embedding of the action handlers of the evt chain and of the
    validation helpers in namespace [__internal], followed by the properties
    of the handlers.  Handlers run in a state-and-exception monad over the
    token database; an exception leaves the database as it was when the
    exception was raised, so "nothing was written" is a theorem about the
    order of checks and writes and not a consequence of the encoding. *)

From stdpp Require Import gmap strings list fin_maps.
From Stdlib Require Import ZArith Lia Sorting.Sorted.

Open Scope Z_scope.

(** ** Machine integers *)

(** [uint32_t] arithmetic wraps modulo 2^32. *)
Definition uint32 (x : Z) : Z := x mod 2 ^ 32.

Definition int64_min : Z := - 2 ^ 63.
Definition int64_max : Z := 2 ^ 63 - 1.

Definition in_int64 (x : Z) : bool := (int64_min <=? x) && (x <=? int64_max).

(** Two's complement wrap-around of [int64_t] ([share_type]). *)
Definition wrap_int64 (x : Z) : Z := (x + 2 ^ 63) mod 2 ^ 64 - 2 ^ 63.

(** [weight_type], declared outside evt_contract.cpp, is the chain's
    [uint16_t]; thresholds are [uint32_t] and group ids [uint128_t]. *)
Definition is_weight (w : Z) : Prop := 0 <= w < 2 ^ 16.
Definition is_uint32 (x : Z) : Prop := 0 <= x < 2 ^ 32.
Definition is_uint128 (x : Z) : Prop := 0 <= x < 2 ^ 128.

(** ** Data model *)

(** [name128] packs a short name into 128 bits; the packing is declared
    outside evt_contract.cpp, names are identified with their text and the empty name
    (value 0) with the empty text. *)
Abbreviation name128 := string (only parsing).

(** [group_id] wraps a [uint128_t]; [empty()] is "the value is zero". *)
Abbreviation group_id := Z (only parsing).

(** [public_key_type], compared as an opaque totally ordered value. *)
Abbreviation public_key_type := Z (only parsing).

Abbreviation user_list := (list Z) (only parsing).

Definition group_id_empty (id : group_id) : bool := id =? 0.
Definition name_empty (n : name128) : bool := String.eqb n "".

Record group_weight := mk_group_weight {
  gw_id : group_id;
  gw_weight : Z
}.

Record key_weight := mk_key_weight {
  kw_key : public_key_type;
  kw_weight : Z
}.

Record permission_def := mk_permission_def {
  pd_name : name128;
  pd_threshold : Z;
  pd_groups : list group_weight
}.

Record group_def := mk_group_def {
  gd_id : group_id;
  gd_key : public_key_type;
  gd_threshold : Z;
  gd_keys : list key_weight
}.

Record updategroup := mk_updategroup {
  ug_id : group_id;
  ug_threshold : Z;
  ug_keys : list key_weight
}.

(** The second [validate] overload is a template over any [T] that has a
    [threshold] and a list of [keys]; it is used at [group_def] and at
    [updategroup]. *)
Class WeightedKeys (T : Type) := {
  threshold_of : T -> Z;
  keys_of : T -> list key_weight
}.

#[export] Instance group_def_keys : WeightedKeys group_def :=
  {| threshold_of := gd_threshold; keys_of := gd_keys |}.

#[export] Instance updategroup_keys : WeightedKeys updategroup :=
  {| threshold_of := ug_threshold; keys_of := ug_keys |}.

(** ** Validation primitives (namespace [__internal]) *)

Module internal.

(** The loop of [validate(const permission_def&)]: [None] is the early
    [return false], [Some total] the accumulated [uint32_t total_weight]. *)
Fixpoint validate_permission_loop (prev : option group_weight) (total_weight : Z)
    (gs : list group_weight) : option Z :=
  match gs with
  | [] => Some total_weight
  | gw :: rest =>
      if match prev with
         | Some p => gw_id p <=? gw_id gw
         | None => false
         end
      then None
      else if gw_weight gw =? 0 then None
      else validate_permission_loop (Some gw) (uint32 (total_weight + gw_weight gw)) rest
  end.

(** [validate(const permission_def &permission)] *)
Definition validate_permission (permission : permission_def) : bool :=
  match validate_permission_loop None 0 (pd_groups permission) with
  | None => false
  | Some total_weight => pd_threshold permission <=? total_weight
  end.

Fixpoint validate_group_loop (prev : option key_weight) (total_weight : Z)
    (ks : list key_weight) : option Z :=
  match ks with
  | [] => Some total_weight
  | kw :: rest =>
      if match prev with
         | Some p => (kw_key p <? kw_key kw) || (kw_key p =? kw_key kw)
         | None => false
         end
      then None
      else if kw_weight kw =? 0 then None
      else validate_group_loop (Some kw) (uint32 (total_weight + kw_weight kw)) rest
  end.

(** [template<typename T> validate(const T &group)] *)
Definition validate_group {T} `{WeightedKeys T} (group : T) : bool :=
  if threshold_of group =? 0 then false
  else
    match validate_group_loop None 0 (keys_of group) with
    | None => false
    | Some total_weight => threshold_of group <=? total_weight
    end.

End internal.

(** ** Vocabulary of the validation claims *)

(** Strictly descending: every element is greater than all later ones. *)
Definition strictly_descending (l : list Z) : Prop :=
  StronglySorted (fun a b => b < a) l.

Definition sum_weights (l : list Z) : Z := foldr Z.add 0 l.

Definition group_ids (p : permission_def) : list Z := map gw_id (pd_groups p).
Definition group_weights (p : permission_def) : list Z := map gw_weight (pd_groups p).

Definition member_keys (ks : list key_weight) : list Z := map kw_key ks.
Definition member_weights (ks : list key_weight) : list Z := map kw_weight ks.

(** The property of a permission that the validator is meant to decide. *)
Definition permission_invalid (p : permission_def) : Prop :=
  ~ strictly_descending (group_ids p)
  \/ ~ NoDup (group_ids p)
  \/ Exists (fun w => w = 0) (group_weights p)
  \/ sum_weights (group_weights p) < pd_threshold p.

Definition group_invalid {T} `{WeightedKeys T} (g : T) : Prop :=
  threshold_of g = 0
  \/ ~ strictly_descending (member_keys (keys_of g))
  \/ ~ NoDup (member_keys (keys_of g))
  \/ Exists (fun w => w = 0) (member_weights (keys_of g))
  \/ sum_weights (member_weights (keys_of g)) < threshold_of g.

(** Well-formed inputs: every field is in the range of its C++ type. *)
Definition permission_wf (p : permission_def) : Prop :=
  is_uint32 (pd_threshold p)
  /\ Forall is_uint128 (group_ids p)
  /\ Forall is_weight (group_weights p).

Definition keys_wf (ks : list key_weight) : Prop :=
  Forall (fun k => 0 <= k) (member_keys ks) /\ Forall is_weight (member_weights ks).

(** Boolean test of strict descent, linear in the list. *)
Fixpoint descending_from (x : Z) (l : list Z) : bool :=
  match l with
  | [] => true
  | y :: rest => (y <? x) && descending_from y rest
  end.

Definition descendingb (l : list Z) : bool :=
  match l with
  | [] => true
  | x :: rest => descending_from x rest
  end.

(** ** Records of the ledger and action payloads *)

(** Modelled from the spec: [asset] (declared outside evt_contract.cpp) is an
    integral currency amount held in an [int64_t]; its symbol plays no part
    in the handlers and is left out. *)
Record asset := mk_asset { amount : Z }.

Definition asset_ge (a b : asset) : bool := amount b <=? amount a.
Definition asset_sub (a b : asset) : asset := mk_asset (wrap_int64 (amount a - amount b)).
Definition asset_add (a b : asset) : asset := mk_asset (wrap_int64 (amount a + amount b)).

Record domain_def := mk_domain_def {
  dd_name : name128;
  dd_issuer : public_key_type;
  dd_issue_time : Z;
  dd_issue : permission_def;
  dd_transfer : permission_def;
  dd_manage : permission_def
}.

Record token_def := mk_token_def {
  td_domain : name128;
  td_name : name128;
  td_owner : user_list
}.

Record account_def := mk_account_def {
  ad_name : name128;
  ad_creator : name128;
  ad_balance : asset;
  ad_frozen_balance : asset;
  ad_owner : user_list
}.

(** [account_def()], the default-constructed record. *)
Definition account_def_default : account_def :=
  mk_account_def "" "" (mk_asset 0) (mk_asset 0) [].

Record newdomain := mk_newdomain {
  nd_name : name128;
  nd_issuer : public_key_type;
  nd_issue : permission_def;
  nd_transfer : permission_def;
  nd_manage : permission_def;
  nd_groups : list group_def
}.

Record issuetoken := mk_issuetoken {
  it_domain : name128;
  it_names : list name128;
  it_owner : user_list
}.

Record transfer := mk_transfer {
  tt_domain : name128;
  tt_name : name128;
  tt_to : user_list
}.

Record updatedomain := mk_updatedomain {
  ud_name : name128;
  ud_issue : option permission_def;
  ud_transfer : option permission_def;
  ud_manage : option permission_def;
  ud_groups : list group_def
}.

Record newaccount := mk_newaccount {
  na_name : name128;
  na_owner : user_list
}.

Record updateowner := mk_updateowner {
  uo_name : name128;
  uo_owner : user_list
}.

Record transferevt := mk_transferevt {
  te_from : name128;
  te_to : name128;
  te_amount : asset
}.

Record updateaccount := mk_updateaccount {
  ua_name : name128;
  ua_owner : option user_list;
  ua_balance : option asset;
  ua_frozen_balance : option asset
}.

(** [updateaccount()]: only the name, every optional field absent. *)
Definition updateaccount_default : updateaccount :=
  mk_updateaccount "" None None None.

(** The action carried by the context; each handler decodes its own payload
    with [context.act.data_as<T>()]. *)
Inductive action :=
  | act_newdomain (ndact : newdomain)
  | act_issuetoken (itact : issuetoken)
  | act_transfer (ttact : transfer)
  | act_updategroup (ugact : updategroup)
  | act_updatedomain (udact : updatedomain)
  | act_newaccount (naact : newaccount)
  | act_updateowner (uoact : updateowner)
  | act_transferevt (teact : transferevt).

(** ** The authorization oracle *)

(** [has_authorized(domain, key)] takes a [name128] and a [uint128_t] key.
    The key is either a name cast to its value or a group id; the two
    origins are kept apart by a tag. *)
Inductive domain_key :=
  | key_of_name (n : name128)
  | key_of_group (id : group_id).

Record apply_context := mk_apply_context {
  has_authorized : name128 -> domain_key -> bool;
  head_block_time : Z
}.

(** ** The token database *)

(** The mutating calls of the database interface, as the handlers issue
    them. *)
Inductive db_write :=
  | w_add_domain (d : domain_def)
  | w_add_group (g : group_def)
  | w_issue_tokens (it : issuetoken)
  | w_transfer_token (tt : transfer)
  | w_update_group (ug : updategroup)
  | w_update_domain (ud : updatedomain)
  | w_add_account (a : account_def)
  | w_update_account (ua : updateaccount).

(** Modelled from the spec: the ledger store ([token_database], declared
    outside evt_contract.cpp) is a key-value store of domains by name, groups by
    id, tokens by (domain, name) and accounts by name; [db_journal] lists
    the mutating calls received so far, oldest first. *)
Record token_database := mk_token_database {
  db_domains : gmap string domain_def;
  db_groups : gmap Z group_def;
  db_tokens : gmap (string * string) token_def;
  db_accounts : gmap string account_def;
  db_journal : list db_write
}.

Definition empty_database : token_database :=
  mk_token_database ∅ ∅ ∅ ∅ [].

Definition journal (w : db_write) (db : token_database) : token_database :=
  mk_token_database (db_domains db) (db_groups db) (db_tokens db) (db_accounts db)
    (db_journal db ++ [w]).

Definition with_domains (f : gmap string domain_def -> gmap string domain_def)
    (db : token_database) : token_database :=
  mk_token_database (f (db_domains db)) (db_groups db) (db_tokens db) (db_accounts db)
    (db_journal db).

Definition with_groups (f : gmap Z group_def -> gmap Z group_def)
    (db : token_database) : token_database :=
  mk_token_database (db_domains db) (f (db_groups db)) (db_tokens db) (db_accounts db)
    (db_journal db).

Definition with_tokens (f : gmap (string * string) token_def -> gmap (string * string) token_def)
    (db : token_database) : token_database :=
  mk_token_database (db_domains db) (db_groups db) (f (db_tokens db)) (db_accounts db)
    (db_journal db).

Definition with_accounts (f : gmap string account_def -> gmap string account_def)
    (db : token_database) : token_database :=
  mk_token_database (db_domains db) (db_groups db) (db_tokens db) (f (db_accounts db))
    (db_journal db).

Module tokendb.

(** Modelled from the spec: [exists_domain(name)], whether the store holds
    a domain under [name]; the body is outside evt_contract.cpp, as for all
    the calls of this module. *)
Definition exists_domain (name : name128) (db : token_database) : bool :=
  bool_decide (is_Some (db_domains db !! name)).

(** Modelled from the spec: [exists_group(id)]. *)
Definition exists_group (id : group_id) (db : token_database) : bool :=
  bool_decide (is_Some (db_groups db !! id)).

(** Modelled from the spec: [exists_token(domain, name)]. *)
Definition exists_token (domain name : name128) (db : token_database) : bool :=
  bool_decide (is_Some (db_tokens db !! (domain, name))).

(** Modelled from the spec: [exists_account(name)]. *)
Definition exists_account (name : name128) (db : token_database) : bool :=
  bool_decide (is_Some (db_accounts db !! name)).

(** Modelled from the spec: [add_domain(record)] stores the record under
    its name. *)
Definition add_domain (d : domain_def) (db : token_database) : token_database :=
  journal (w_add_domain d) (with_domains (insert (dd_name d) d) db).

(** Modelled from the spec: [add_group(record)] stores the record under
    its id. *)
Definition add_group (g : group_def) (db : token_database) : token_database :=
  journal (w_add_group g) (with_groups (insert (gd_id g) g) db).

(** Modelled from the spec: [issue_tokens(batch)] creates one token per
    name of the batch, all with the owner of the batch. *)
Definition issue_tokens (it : issuetoken) (db : token_database) : token_database :=
  journal (w_issue_tokens it)
    (with_tokens
       (fun m => foldl (fun m n => <[(it_domain it, n) := mk_token_def (it_domain it) n (it_owner it)]> m)
                   m (it_names it))
       db).

(** Modelled from the spec: [transfer_token] overwrites the owner of the
    token. *)
Definition transfer_token (tt : transfer) (db : token_database) : token_database :=
  journal (w_transfer_token tt)
    (with_tokens
       (alter (fun t => mk_token_def (td_domain t) (td_name t) (tt_to tt)) (tt_domain tt, tt_name tt))
       db).

(** Modelled from the spec: [update_group] overwrites the threshold and the
    keys of the stored group. *)
Definition update_group (ug : updategroup) (db : token_database) : token_database :=
  journal (w_update_group ug)
    (with_groups
       (alter (fun g => mk_group_def (gd_id g) (gd_key g) (ug_threshold ug) (ug_keys ug)) (ug_id ug))
       db).

(** Modelled from the spec: [update_domain] writes the permissions that the
    action supplies and keeps the stored value of the others. *)
Definition update_domain (ud : updatedomain) (db : token_database) : token_database :=
  journal (w_update_domain ud)
    (with_domains
       (alter (fun d => mk_domain_def (dd_name d) (dd_issuer d) (dd_issue_time d)
                          (default (dd_issue d) (ud_issue ud))
                          (default (dd_transfer d) (ud_transfer ud))
                          (default (dd_manage d) (ud_manage ud)))
              (ud_name ud))
       db).

(** Modelled from the spec: [add_account(record)] stores the record under
    its name. *)
Definition add_account (a : account_def) (db : token_database) : token_database :=
  journal (w_add_account a) (with_accounts (insert (ad_name a) a) db).

(** Modelled from the spec: [update_account] writes the fields that the
    update supplies into the record stored under its name and keeps the
    others. *)
Definition update_account (ua : updateaccount) (db : token_database) : token_database :=
  journal (w_update_account ua)
    (with_accounts
       (alter (fun a => mk_account_def (ad_name a) (ad_creator a)
                          (default (ad_balance a) (ua_balance ua))
                          (default (ad_frozen_balance a) (ua_frozen_balance ua))
                          (default (ad_owner a) (ua_owner ua)))
              (ua_name ua))
       db).

(** Modelled from the spec: [read_account(name, f)] calls [f] on the
    current record, if there is one. *)
Definition read_account (name : name128) (db : token_database) : option account_def :=
  db_accounts db !! name.

End tokendb.

(** ** Checked arithmetic *)

(** The two helpers of [evt/utilities/safemath.hpp] that the handlers call,
    as [test_sub(a, b, result)] and [test_add(a, b, result)].  The header is
    outside evt_contract.cpp.  A helper is given the two operands and what
    [result] holds before the call, and returns its flag and what [result]
    holds after the call. *)
Class SafeMath := {
  test_sub : Z -> Z -> Z -> bool * Z;
  test_add : Z -> Z -> Z -> bool * Z
}.

Module safemath.

(** Modelled from the spec: [safemath::test_sub] performs the subtraction
    on [int64_t] with overflow detection: the flag says that the exact
    difference is representable, and [result] receives the difference. *)
Definition test_sub (a b result : Z) : bool * Z :=
  (in_int64 (a - b), wrap_int64 (a - b)).

(** Modelled from the spec: [safemath::test_add] performs the addition on
    [int64_t] with overflow detection: the flag says that the exact sum is
    representable, and [result] receives the sum. *)
Definition test_add (a b result : Z) : bool * Z :=
  (in_int64 (a + b), wrap_int64 (a + b)).

End safemath.

#[export] Instance checked_int64 : SafeMath :=
  {| test_sub := safemath.test_sub; test_add := safemath.test_add |}.

(** ** The handler monad *)

(** [EVT_ASSERT] throws [action_validate_exception] with a message. *)
Inductive exception :=
  | action_validate_exception (what : string).

Inductive result (A : Type) :=
  | Ok (a : A)
  | Err (e : exception).
Arguments Ok {A} a.
Arguments Err {A} e.

(** A computation takes the database and returns a value or an exception,
    together with the database as it stands at that point: an exception
    does not undo the writes made before it. *)
Definition M (A : Type) : Type := token_database -> result A * token_database.

#[export] Instance M_ret : MRet M := fun A a db => (Ok a, db).

#[export] Instance M_bind : MBind M := fun A B f m db =>
  match m db with
  | (Ok a, db') => f a db'
  | (Err e, db') => (Err e, db')
  end.

Definition throw {A} (e : exception) : M A := fun db => (Err e, db).

(** A read-only call on the database. *)
Definition query {A} (f : token_database -> A) : M A := fun db => (Ok (f db), db).

(** A mutating call on the database; its return code is ignored by every
    handler. *)
Definition perform (f : token_database -> token_database) : M unit :=
  fun db => (Ok tt, f db).

Definition EVT_ASSERT (cond : bool) (what : string) : M unit :=
  if cond then mret tt else throw (action_validate_exception what).

(** A range-based [for] loop whose body may throw. *)
Fixpoint for_each {A} (l : list A) (body : A -> M unit) : M unit :=
  match l with
  | [] => mret tt
  | x :: rest => body x ;; for_each rest body
  end.

Definition succeeds {A} (m : M A) (db db' : token_database) : Prop :=
  exists a, m db = (Ok a, db').

(** ** The group resolver *)

Module checker.

(** [std::find_if(groups.cbegin(), groups.cend(), ...) != groups.cend()] *)
Definition defexisted (groups : list group_def) (id : group_id) : bool :=
  existsb (fun gd => gd_id gd =? id) groups.

(** The body of the loop of the lambda returned by
    [make_permission_checker], for one entry [g] of [p.groups]. *)
Definition check_group (groups : list group_def) (allowed_owner : bool)
    (g : group_weight) : M unit :=
  if group_id_empty (gw_id g) then
    EVT_ASSERT allowed_owner "Owner group is not allowed in ${name} permission"
  else
    dbexisted ← query (tokendb.exists_group (gw_id g));
    EVT_ASSERT (xorb dbexisted (defexisted groups (gw_id g)))
      "Group ${id} is not valid, may already be defined or not provide defines".

End checker.

(** [make_permission_checker(tokendb, groups)(p, allowed_owner)]; the
    captured [tokendb] is the database of the monad. *)
Definition make_permission_checker (groups : list group_def)
    (p : permission_def) (allowed_owner : bool) : M unit :=
  for_each (pd_groups p) (checker.check_group groups allowed_owner).

(** ** The handlers *)

Definition auth_msg : string := "Authorized information doesn't match".

Section Handlers.

(** [config::system_account_name] and [group_id::from_group_key] are
    declared outside evt_contract.cpp; the handlers are given for any
    value of the first and any mapping for the second. *)
Variable system_account_name : name128.
Variable from_group_key : public_key_type -> group_id.
Context {sm : SafeMath}.

(** The loop over the inline groups shared by [newdomain] and
    [updatedomain]. *)
Definition check_inline_group (g : group_def) : M unit :=
  EVT_ASSERT (internal.validate_group g)
    "Group ${id} is not valid, eithor threshold is not valid or exist duplicate or unordered key" ;;
  EVT_ASSERT (gd_id g =? from_group_key (gd_key g)) "Group id and key are not match".

Definition apply_evt_newdomain (context : apply_context) (ndact : newdomain) : M unit :=
  EVT_ASSERT (has_authorized context "domain" (key_of_name (nd_name ndact))) auth_msg ;;
  existed ← query (tokendb.exists_domain (nd_name ndact));
  EVT_ASSERT (negb existed) "Domain ${name} already existed" ;;
  for_each (nd_groups ndact) check_inline_group ;;
  EVT_ASSERT (negb (name_empty (nd_name ndact))) "Domain name shouldn't be empty" ;;
  EVT_ASSERT (String.eqb (pd_name (nd_issue ndact)) "issue")
    "Name of issue permission is not valid, provided: ${name}" ;;
  EVT_ASSERT ((0 <? pd_threshold (nd_issue ndact)) && internal.validate_permission (nd_issue ndact))
    "Issue permission not valid, either threshold is not valid or exist duplicate or unordered keys." ;;
  EVT_ASSERT (String.eqb (pd_name (nd_transfer ndact)) "transfer")
    "Name of transfer permission is not valid, provided: ${name}" ;;
  EVT_ASSERT ((0 <? pd_threshold (nd_transfer ndact)) && internal.validate_permission (nd_transfer ndact))
    "Transfer permission not valid, either threshold is not valid or exist duplicate or unordered keys." ;;
  EVT_ASSERT (String.eqb (pd_name (nd_manage ndact)) "manage")
    "Name of transfer permission is not valid, provided: ${name}" ;;
  EVT_ASSERT (internal.validate_permission (nd_manage ndact))
    "Manage permission not valid, maybe exist duplicate keys." ;;
  let pchecker := make_permission_checker (nd_groups ndact) in
  pchecker (nd_issue ndact) false ;;
  pchecker (nd_transfer ndact) true ;;
  pchecker (nd_manage ndact) false ;;
  let domain :=
    mk_domain_def (nd_name ndact) (nd_issuer ndact) (head_block_time context)
      (nd_issue ndact) (nd_transfer ndact) (nd_manage ndact) in
  perform (tokendb.add_domain domain) ;;
  for_each (nd_groups ndact) (fun g => perform (tokendb.add_group g)).

Definition apply_evt_issuetoken (context : apply_context) (itact : issuetoken) : M unit :=
  EVT_ASSERT (has_authorized context (it_domain itact) (key_of_name "issue")) auth_msg ;;
  existed ← query (tokendb.exists_domain (it_domain itact));
  EVT_ASSERT existed "Domain ${name} not existed" ;;
  EVT_ASSERT (negb (bool_decide (it_owner itact = []))) "Owner cannot be empty" ;;
  for_each (it_names itact) (fun n =>
    existed ← query (tokendb.exists_token (it_domain itact) n);
    EVT_ASSERT (negb existed) "Token ${domain}-${name} already existed") ;;
  perform (tokendb.issue_tokens itact).

Definition apply_evt_transfer (context : apply_context) (ttact : transfer) : M unit :=
  EVT_ASSERT (has_authorized context (tt_domain ttact) (key_of_name (tt_name ttact))) auth_msg ;;
  existed ← query (tokendb.exists_token (tt_domain ttact) (tt_name ttact));
  EVT_ASSERT existed "Token ${domain}-${name} not existed" ;;
  perform (tokendb.transfer_token ttact).

Definition apply_evt_updategroup (context : apply_context) (ugact : updategroup) : M unit :=
  EVT_ASSERT (has_authorized context "group" (key_of_group (ug_id ugact))) auth_msg ;;
  existed ← query (tokendb.exists_group (ug_id ugact));
  EVT_ASSERT existed "Group ${id} not existed" ;;
  EVT_ASSERT (0 <? Z.of_nat (length (ug_keys ugact))) "Group must contains at least one key" ;;
  EVT_ASSERT (internal.validate_group ugact)
    "Updated group is not valid, eithor threshold is not valid or exist duplicate or unordered keys" ;;
  perform (tokendb.update_group ugact).

Definition apply_evt_updatedomain (context : apply_context) (udact : updatedomain) : M unit :=
  EVT_ASSERT (has_authorized context (ud_name udact) (key_of_name "manage")) auth_msg ;;
  existed ← query (tokendb.exists_domain (ud_name udact));
  EVT_ASSERT existed "Domain ${name} is not existed" ;;
  for_each (ud_groups udact) check_inline_group ;;
  EVT_ASSERT (negb (name_empty (ud_name udact))) "Domain name shouldn't be empty" ;;
  let pchecker := make_permission_checker (ud_groups udact) in
  match ud_issue udact with
  | Some issue =>
      EVT_ASSERT (String.eqb (pd_name issue) "issue")
        "Name of issue permission is not valid, provided: ${name}" ;;
      EVT_ASSERT ((0 <? pd_threshold issue) && internal.validate_permission issue)
        "Issue permission not valid, either threshold is not valid or exist duplicate or unordered keys." ;;
      pchecker issue false
  | None => mret tt
  end ;;
  match ud_transfer udact with
  | Some transfer =>
      EVT_ASSERT (String.eqb (pd_name transfer) "transfer")
        "Name of transfer permission is not valid, provided: ${name}" ;;
      EVT_ASSERT ((0 <? pd_threshold transfer) && internal.validate_permission transfer)
        "Transfer permission not valid, either threshold is not valid or exist duplicate or unordered keys." ;;
      pchecker transfer true
  | None => mret tt
  end ;;
  match ud_manage udact with
  | Some manage =>
      EVT_ASSERT (String.eqb (pd_name manage) "manage")
        "Name of manage permission is not valid, provided: ${name}" ;;
      EVT_ASSERT (internal.validate_permission manage)
        "Manage permission not valid, maybe exist duplicate keys." ;;
      pchecker manage false
  | None => mret tt
  end ;;
  perform (tokendb.update_domain udact).

Definition apply_evt_newaccount (context : apply_context) (naact : newaccount) : M unit :=
  EVT_ASSERT (has_authorized context "account" (key_of_name (na_name naact))) auth_msg ;;
  EVT_ASSERT (negb (name_empty (na_name naact))) "Account name shouldn't be empty" ;;
  existed ← query (tokendb.exists_account (na_name naact));
  EVT_ASSERT (negb existed) "Account ${name} already existed" ;;
  let account :=
    mk_account_def (na_name naact) system_account_name (mk_asset 10000) (mk_asset 0)
      (na_owner naact) in
  perform (tokendb.add_account account).

Definition apply_evt_updateowner (context : apply_context) (uoact : updateowner) : M unit :=
  EVT_ASSERT (has_authorized context "account" (key_of_name (uo_name uoact))) auth_msg ;;
  existed ← query (tokendb.exists_account (uo_name uoact));
  EVT_ASSERT existed "Account ${name} don't exist" ;;
  EVT_ASSERT (0 <? Z.of_nat (length (uo_owner uoact))) "Owner cannot be empty" ;;
  let ua := mk_updateaccount (uo_name uoact) (Some (uo_owner uoact)) None None in
  perform (tokendb.update_account ua).

Definition apply_evt_transferevt (context : apply_context) (teact : transferevt) : M unit :=
  EVT_ASSERT (has_authorized context "account" (key_of_name (te_from teact))) auth_msg ;;
  existed ← query (tokendb.exists_account (te_from teact));
  EVT_ASSERT existed "Account ${name} don't exist" ;;
  existed ← query (tokendb.exists_account (te_to teact));
  EVT_ASSERT existed "Account ${name} don't exist" ;;
  EVT_ASSERT (0 <? amount (te_amount teact)) "Transfer amount must be positive" ;;
  facc ← query (fun db => default account_def_default (tokendb.read_account (te_from teact) db));
  tacc ← query (fun db => default account_def_default (tokendb.read_account (te_to teact) db));
  EVT_ASSERT (asset_ge (ad_balance facc) (te_amount teact))
    "Account ${name} don't have enough balance left" ;;
  (* test_sub and test_add are given facc.balance.amount and
     tacc.balance.amount both as first operand and as result *)
  let '(r1, fbal) :=
    test_sub (amount (ad_balance facc)) (amount (te_amount teact)) (amount (ad_balance facc)) in
  let '(r2, tbal) :=
    test_add (amount (ad_balance tacc)) (amount (te_amount teact)) (amount (ad_balance tacc)) in
  EVT_ASSERT (r1 && r2) "Opeartions resulted in overflow results" ;;
  let fbalance := asset_sub (mk_asset fbal) (te_amount teact) in
  let tbalance := asset_add (mk_asset tbal) (te_amount teact) in
  let fua := mk_updateaccount (ad_name facc) None (Some fbalance) None in
  let tua := mk_updateaccount (ad_name tacc) None (Some tbalance) None in
  perform (tokendb.update_account fua) ;;
  perform (tokendb.update_account tua).

(** The handler that runs for each type of action. *)
Definition apply_action (context : apply_context) (act : action) : M unit :=
  match act with
  | act_newdomain ndact => apply_evt_newdomain context ndact
  | act_issuetoken itact => apply_evt_issuetoken context itact
  | act_transfer ttact => apply_evt_transfer context ttact
  | act_updategroup ugact => apply_evt_updategroup context ugact
  | act_updatedomain udact => apply_evt_updatedomain context udact
  | act_newaccount naact => apply_evt_newaccount context naact
  | act_updateowner uoact => apply_evt_updateowner context uoact
  | act_transferevt teact => apply_evt_transferevt context teact
  end.

End Handlers.

(** ** Auxiliary functions for the validation proofs *)

(** Both loops are the same scan over (ordering key, weight) pairs. *)
Fixpoint scan (prev : option Z) (total : Z) (l : list (Z * Z)) : option Z :=
  match l with
  | [] => Some total
  | (k, w) :: rest =>
      if match prev with Some p => p <=? k | None => false end then None
      else if w =? 0 then None
      else scan (Some k) (uint32 (total + w)) rest
  end.

Definition nonzero_weights (l : list Z) : bool := forallb (fun w => negb (w =? 0)) l.

Definition prev_ok (prev : option Z) (keys : list Z) : bool :=
  match prev with
  | Some p => descending_from p keys
  | None => descendingb keys
  end.

(** ** Vocabulary of the handler claims *)

(** A computation that never changes the database. *)
Definition readonly {A} (m : M A) : Prop :=
  forall db, (m db).2 = db.

(** A computation that cannot throw. *)
Definition infallible {A} (m : M A) : Prop :=
  forall db, exists a db', m db = (Ok a, db').

(** Validate-then-commit: when the computation throws, the database is the
    one it started from. *)
Definition writes_nothing_on_failure {A} (m : M A) : Prop :=
  forall db e db', m db = (Err e, db') -> db' = db.

(** The computation never throws the exception [e]. *)
Definition never_throws {A} (e : exception) (m : M A) : Prop :=
  forall db, (m db).1 <> Err e.

(** The handler stopped at its authorization check: that check is the only
    one whose message is [auth_msg]. *)
Definition stopped_at_authorization {A} (m : M A) (db : token_database) : Prop :=
  (m db).1 = Err (action_validate_exception auth_msg).

(** Accounts are stored under their own name. *)
Definition accounts_wf (db : token_database) : Prop :=
  map_Forall (fun n a => ad_name a = n) (db_accounts db).

Definition stored_balance (db : token_database) (name : name128) : option Z :=
  (fun a => amount (ad_balance a)) <$> db_accounts db !! name.

(** The database a successful [transferevt] leaves, given the two records
    it read and what the helpers left in the two local balances. *)
Definition transferevt_result (teact : transferevt) (facc tacc : account_def)
    (fbal tbal : Z) (db : token_database) : token_database :=
  let amt := amount (te_amount teact) in
  tokendb.update_account
    (mk_updateaccount (ad_name tacc) None (Some (mk_asset (wrap_int64 (tbal + amt)))) None)
    (tokendb.update_account
       (mk_updateaccount (ad_name facc) None (Some (mk_asset (wrap_int64 (fbal - amt)))) None)
       db).

(** The group resolver's verdict on one entry of a permission. *)
Definition in_store (db : token_database) (id : group_id) : Prop :=
  is_Some (db_groups db !! id).

Definition defined_inline (groups : list group_def) (id : group_id) : Prop :=
  exists gd, gd ∈ groups /\ gd_id gd = id.

Definition exactly_one (P Q : Prop) : Prop := (P /\ ~ Q) \/ (~ P /\ Q).

Definition group_accepted (groups : list group_def) (allowed_owner : bool)
    (db : token_database) (g : group_weight) : Prop :=
  (gw_id g = 0 -> allowed_owner = true)
  /\ (gw_id g <> 0 -> exactly_one (in_store db (gw_id g)) (defined_inline groups (gw_id g))).

Definition permission_resolved (groups : list group_def) (allowed_owner : bool)
    (db : token_database) (p : permission_def) : Prop :=
  Forall (group_accepted groups allowed_owner db) (pd_groups p).

(** The checks of [newdomain] that come before the group resolver. *)
Definition newdomain_validated (from_group_key : public_key_type -> group_id)
    (context : apply_context) (ndact : newdomain) (db : token_database) : Prop :=
  has_authorized context "domain" (key_of_name (nd_name ndact)) = true
  /\ db_domains db !! nd_name ndact = None
  /\ Forall (fun g => internal.validate_group g = true /\ gd_id g = from_group_key (gd_key g))
       (nd_groups ndact)
  /\ nd_name ndact <> ""
  /\ (pd_name (nd_issue ndact) = "issue" /\ 0 < pd_threshold (nd_issue ndact)
      /\ internal.validate_permission (nd_issue ndact) = true)
  /\ (pd_name (nd_transfer ndact) = "transfer" /\ 0 < pd_threshold (nd_transfer ndact)
      /\ internal.validate_permission (nd_transfer ndact) = true)
  /\ (pd_name (nd_manage ndact) = "manage"
      /\ internal.validate_permission (nd_manage ndact) = true).

Definition domain_of (context : apply_context) (ndact : newdomain) : domain_def :=
  mk_domain_def (nd_name ndact) (nd_issuer ndact) (head_block_time context)
    (nd_issue ndact) (nd_transfer ndact) (nd_manage ndact).

(** The database a successful [newdomain] leaves. *)
Definition newdomain_result (context : apply_context) (ndact : newdomain)
    (db : token_database) : token_database :=
  foldl (fun db g => tokendb.add_group g db)
    (tokendb.add_domain (domain_of context ndact) db) (nd_groups ndact).

(** ** Vocabulary of the further properties *)

(** The scope each handler passes to [has_authorized] in its first line. *)
Definition authorization_scope (act : action) : name128 * domain_key :=
  match act with
  | act_newdomain ndact => ("domain", key_of_name (nd_name ndact))
  | act_issuetoken itact => (it_domain itact, key_of_name "issue")
  | act_transfer ttact => (tt_domain ttact, key_of_name (tt_name ttact))
  | act_updategroup ugact => ("group", key_of_group (ug_id ugact))
  | act_updatedomain udact => (ud_name udact, key_of_name "manage")
  | act_newaccount naact => ("account", key_of_name (na_name naact))
  | act_updateowner uoact => ("account", key_of_name (uo_name uoact))
  | act_transferevt teact => ("account", key_of_name (te_from teact))
  end.

(** What [updatedomain] asks of a permission that the action supplies:
    the name of its slot, a positive threshold where [positive] is set, a
    valid definition, and groups that the resolver accepts. *)
Definition supplied_permission_ok (slot : string) (positive allowed_owner : bool)
    (groups : list group_def) (db : token_database) (supplied : option permission_def) : Prop :=
  match supplied with
  | None => True
  | Some p =>
      pd_name p = slot
      /\ (positive = true -> 0 < pd_threshold p)
      /\ internal.validate_permission p = true
      /\ permission_resolved groups allowed_owner db p
  end.

(** Every record is stored under its own key. *)
Definition domains_wf (db : token_database) : Prop :=
  map_Forall (fun n d => dd_name d = n) (db_domains db).

Definition groups_wf (db : token_database) : Prop :=
  map_Forall (fun id g => gd_id g = id) (db_groups db).

Definition tokens_wf (db : token_database) : Prop :=
  map_Forall (fun k t => (td_domain t, td_name t) = k) (db_tokens db).

Definition store_wf (db : token_database) : Prop :=
  domains_wf db /\ groups_wf db /\ tokens_wf db /\ accounts_wf db.

(** Filing under the own key carries over from [db] to [db']. *)
Definition keeps_wf (db db' : token_database) : Prop := store_wf db -> store_wf db'.

(** No record of [db] is missing from [db']. *)
Definition keeps_records (db db' : token_database) : Prop :=
  (forall n, is_Some (db_domains db !! n) -> is_Some (db_domains db' !! n))
  /\ (forall id, is_Some (db_groups db !! id) -> is_Some (db_groups db' !! id))
  /\ (forall k, is_Some (db_tokens db !! k) -> is_Some (db_tokens db' !! k))
  /\ (forall n, is_Some (db_accounts db !! n) -> is_Some (db_accounts db' !! n)).

(** Every account of [db] is still there in [db'] with the same name,
    creator and frozen balance, with the same balance if [balance_fixed]
    and the same owner if [owner_fixed]. *)
Definition accounts_evolve (balance_fixed owner_fixed : bool)
    (db db' : token_database) : Prop :=
  forall n a, db_accounts db !! n = Some a ->
    exists a', db_accounts db' !! n = Some a'
      /\ ad_name a' = ad_name a
      /\ ad_creator a' = ad_creator a
      /\ ad_frozen_balance a' = ad_frozen_balance a
      /\ (balance_fixed = true -> ad_balance a' = ad_balance a)
      /\ (owner_fixed = true -> ad_owner a' = ad_owner a).

Definition is_transferevt (act : action) : bool :=
  match act with act_transferevt _ => true | _ => false end.

Definition is_updateowner (act : action) : bool :=
  match act with act_updateowner _ => true | _ => false end.



(** [R] relates the database before and after running [m] from [db],
    whatever the outcome. *)
Definition steps_at {A} (R : token_database -> token_database -> Prop)
    (m : M A) (db : token_database) : Prop :=
  forall r db', m db = (r, db') -> R db db'.

(** ** Concrete ledgers and actions *)

(** Small permissions: two groups in descending order, the same two in
    ascending order, a repeated id, a weightless group, and a threshold out
    of reach. *)
Definition perm (threshold : Z) (groups : list (Z * Z)) : permission_def :=
  mk_permission_def "issue" threshold (map (fun g => mk_group_weight g.1 g.2) groups).

Definition perm_ok : permission_def := perm 3 [(9, 2); (4, 1)].
Definition perm_ascending : permission_def := perm 3 [(4, 1); (9, 2)].
Definition perm_repeated : permission_def := perm 3 [(9, 2); (9, 1)].
Definition perm_weightless : permission_def := perm 2 [(9, 2); (4, 0)].
Definition perm_unreachable : permission_def := perm 4 [(9, 2); (4, 1)].

(** [countdown n top] is [top; top - 1; ...], [n] numbers. *)
Fixpoint countdown (n : nat) (top : Z) : list Z :=
  match n with
  | O => []
  | S n' => top :: countdown n' (top - 1)
  end.

(** A permission with 65538 groups of the largest weight a [uint16_t]
    holds, listed by descending id 65538, 65537, ..., 1.  The weights add up
    to 4295032830, which is 65534 modulo 2^32. *)
Definition heavy_groups : list group_weight :=
  map (fun i => mk_group_weight i 65535) (countdown (Z.to_nat 65538) 65538).

Definition heavy_permission : permission_def :=
  mk_permission_def "issue" 65535 heavy_groups.

(** The same shape for a group: 65538 member keys of weight 65535. *)
Definition heavy_keys : list key_weight :=
  map (fun k => mk_key_weight k 65535) (countdown (Z.to_nat 65538) 65538).

Definition heavy_group : group_def :=
  mk_group_def 7 7 65535 heavy_keys.

(** An oracle that authorizes everything, at block time 7. *)
Definition permissive_context : apply_context :=
  mk_apply_context (fun _ _ => true) 7.

Definition fresh_account (name : name128) (balance : Z) : account_def :=
  mk_account_def name "evt" (mk_asset balance) (mk_asset 0) [1].

(** A ledger with two accounts holding 10000 each. *)
Definition two_accounts : token_database :=
  tokendb.add_account (fresh_account "bob" 10000)
    (tokendb.add_account (fresh_account "alice" 10000) empty_database).

Definition overdraft : transferevt := mk_transferevt "alice" "bob" (mk_asset 20000).
Definition pay_bob : transferevt := mk_transferevt "alice" "bob" (mk_asset 100).
Definition pay_self : transferevt := mk_transferevt "alice" "alice" (mk_asset 100).

(** An oracle that answers yes exactly for the scope kind "domain". *)
Definition domain_scope_context : apply_context :=
  mk_apply_context (fun domain _ => String.eqb domain "domain") 7.

(** An oracle that answers yes exactly for the key "manage". *)
Definition manage_key_context : apply_context :=
  mk_apply_context
    (fun _ key => match key with key_of_name n => String.eqb n "manage" | _ => false end) 7.

(** An [updatedomain] for the domain "d1" that changes nothing. *)
Definition touch_d1 : updatedomain := mk_updatedomain "d1" None None None [].

(** A stand-in for [group_id::from_group_key]. *)
Definition sample_group_key (key : public_key_type) : group_id := 2 * key + 1.

Definition sample_group (key : public_key_type) (member : public_key_type) : group_def :=
  mk_group_def (sample_group_key key) key 1 [mk_key_weight member 1].

(** A [newdomain] whose [issue] permission refers to the first inline
    group, whose [transfer] permission is the owner group alone, and whose
    second inline group no permission refers to. *)
Definition create_d1 : newdomain :=
  mk_newdomain "d1" 3
    (mk_permission_def "issue" 1 [mk_group_weight (sample_group_key 5) 1])
    (mk_permission_def "transfer" 1 [mk_group_weight 0 1])
    (mk_permission_def "manage" 0 [])
    [sample_group 5 9; sample_group 6 8].

Definition new_carol : newaccount := mk_newaccount "carol" [5].

(** A ledger that holds the domain "d1" only. *)
Definition d1_only : token_database :=
  tokendb.add_domain (domain_of permissive_context create_d1) empty_database.

Definition issue_nothing : issuetoken := mk_issuetoken "d1" [] [4].

(** The ledgers the handlers leave on the sample actions. *)
Definition after_pay_bob : token_database :=
  (apply_evt_transferevt permissive_context pay_bob two_accounts).2.

Definition after_pay_self : token_database :=
  (apply_evt_transferevt permissive_context pay_self two_accounts).2.

Definition after_overdraft : token_database :=
  (apply_action "evt" sample_group_key permissive_context (act_transferevt overdraft)
     two_accounts).2.

Definition after_new_carol : token_database :=
  (apply_evt_newaccount "evt" permissive_context new_carol two_accounts).2.

Definition after_create_d1 : token_database :=
  (apply_evt_newdomain sample_group_key permissive_context create_d1 empty_database).2.

(** A ledger in which "bob" is 100 short of the largest [int64_t]. *)
Definition rich_bob : token_database :=
  tokendb.add_account (fresh_account "bob" (int64_max - 100))
    (tokendb.add_account (fresh_account "alice" 10000) empty_database).

(** ** More sample actions *)

Definition issue_t1_t2 : issuetoken := mk_issuetoken "d1" ["t1"; "t2"] [4].
Definition issue_t2_t3 : issuetoken := mk_issuetoken "d1" ["t3"; "t2"] [6].
Definition give_t1 : transfer := mk_transfer "d1" "t1" [8].

Definition after_issue : token_database :=
  (apply_evt_issuetoken permissive_context issue_t1_t2 d1_only).2.

Definition pay_nothing : transferevt := mk_transferevt "alice" "bob" (mk_asset 0).
Definition pay_zed : transferevt := mk_transferevt "alice" "zed" (mk_asset 100).
Definition alice_to_2 : updateowner := mk_updateowner "alice" [2].

Definition after_alice_to_2 : token_database :=
  (apply_evt_updateowner permissive_context alice_to_2 two_accounts).2.

(** A valid permission that ends with the owner group. *)
Definition perm_owner_last : permission_def := perm 2 [(9, 1); (0, 1)].

(** * Properties *)

(** ** Validation primitives *)

Section Validation.


Lemma validate_permission_loop_scan gs : forall prev total,
  internal.validate_permission_loop prev total gs
  = scan (gw_id <$> prev) total (map (fun g => (gw_id g, gw_weight g)) gs).
Proof.
  induction gs as [|g gs IH]; intros prev total; simpl; [reflexivity|].
  destruct prev as [p|]; simpl.
  - destruct (gw_id p <=? gw_id g); [reflexivity|].
    destruct (gw_weight g =? 0); [reflexivity|]. apply IH.
  - destruct (gw_weight g =? 0); [reflexivity|]. apply IH.
Qed.

Lemma validate_group_loop_scan ks : forall prev total,
  internal.validate_group_loop prev total ks
  = scan (kw_key <$> prev) total (map (fun k => (kw_key k, kw_weight k)) ks).
Proof.
  induction ks as [|k ks IH]; intros prev total; simpl; [reflexivity|].
  destruct prev as [p|]; simpl.
  - replace ((kw_key p <? kw_key k) || (kw_key p =? kw_key k))
      with (kw_key p <=? kw_key k)
      by (destruct (Z.ltb_spec (kw_key p) (kw_key k)), (Z.eqb_spec (kw_key p) (kw_key k)),
            (Z.leb_spec (kw_key p) (kw_key k)); simpl; try reflexivity; lia).
    destruct (kw_key p <=? kw_key k); [reflexivity|].
    destruct (kw_weight k =? 0); [reflexivity|]. apply IH.
  - destruct (kw_weight k =? 0); [reflexivity|]. apply IH.
Qed.

Lemma descending_from_spec l : forall x,
  descending_from x l = true <-> strictly_descending l /\ Forall (fun y => y < x) l.
Proof.
  unfold strictly_descending.
  induction l as [|y l IH]; intros x; simpl.
  - split; [intros _; split; constructor | reflexivity].
  - rewrite andb_true_iff, Z.ltb_lt, IH. split.
    + intros (Hyx & Hs & Hall). split.
      * constructor; assumption.
      * constructor; [assumption|].
        eapply Forall_impl; [exact Hall|]. simpl. intros; lia.
    + intros (Hs & Hall). inversion Hs; subst. inversion Hall; subst. tauto.
Qed.

Lemma descendingb_spec l : descendingb l = true <-> strictly_descending l.
Proof.
  destruct l as [|x l]; simpl.
  - split; [intros _; constructor | reflexivity].
  - rewrite descending_from_spec. unfold strictly_descending. split.
    + intros [Hs Hall]. constructor; assumption.
    + intros Hs. inversion Hs; subst. tauto.
Qed.

Lemma descendingb_true l : descendingb l = true -> strictly_descending l.
Proof. apply descendingb_spec. Qed.

Lemma nonzero_weights_true l :
  nonzero_weights l = true -> ~ Exists (fun w => w = 0) l.
Proof.
  unfold nonzero_weights. intros H HE. apply Exists_exists in HE as (w & Hin & ->).
  rewrite forallb_forall in H. apply list_elem_of_In, H in Hin. discriminate.
Qed.

Lemma strictly_descending_NoDup l : strictly_descending l -> NoDup l.
Proof.
  unfold strictly_descending. induction 1 as [|x l Hs IH Hall]; constructor; [|assumption].
  intros Hin. rewrite Forall_forall in Hall. specialize (Hall _ Hin). lia.
Qed.


Lemma nonzero_weights_spec l :
  nonzero_weights l = false <-> Exists (fun w => w = 0) l.
Proof.
  unfold nonzero_weights. induction l as [|w l IH]; simpl.
  - split; [discriminate | intros H; inversion H].
  - rewrite Exists_cons, <- IH. destruct (Z.eqb_spec w 0); simpl; intuition congruence.
Qed.

Lemma uint32_add_l a b : uint32 (uint32 a + b) = uint32 (a + b).
Proof. unfold uint32. apply Zplus_mod_idemp_l. Qed.


(** What the scan computes: it stops at the first pair that is out of order
    or weightless, and otherwise returns the sum of the weights modulo
    2^32. *)
Lemma scan_spec l : forall prev total,
  scan prev total l
  = if prev_ok prev (map fst l) && nonzero_weights (map snd l)
    then Some (if l is [] then total else uint32 (total + sum_weights (map snd l)))
    else None.
Proof.
  induction l as [|[k w] l IH]; intros prev total.
  - destruct prev; reflexivity.
  - cbn [scan map fst snd].
    assert (Hstep : prev_ok prev (k :: map fst l)
                    = negb (match prev with Some p => p <=? k | None => false end)
                      && prev_ok (Some k) (map fst l)).
    { destruct prev as [p|]; simpl; [|reflexivity].
      destruct (Z.ltb_spec k p), (Z.leb_spec p k); simpl; try reflexivity; lia. }
    rewrite Hstep.
    destruct (match prev with Some p => p <=? k | None => false end); [reflexivity|].
    cbn [negb andb nonzero_weights forallb].
    destruct (w =? 0); cbn [negb andb].
    { rewrite andb_false_r. reflexivity. }
    rewrite IH. fold (nonzero_weights (map snd l)).
    destruct (prev_ok (Some k) (map fst l) && nonzero_weights (map snd l)); [|reflexivity].
    f_equal. destruct l as [|kw l]; cbn [sum_weights foldr map].
    + f_equal. lia.
    + rewrite uint32_add_l. f_equal. simpl. lia.
Qed.

Lemma scan_start l :
  scan None 0 l
  = if descendingb (map fst l) && nonzero_weights (map snd l)
    then Some (uint32 (sum_weights (map snd l))) else None.
Proof.
  rewrite scan_spec. simpl prev_ok.
  destruct (descendingb (map fst l) && nonzero_weights (map snd l)); [|reflexivity].
  destruct l; reflexivity.
Qed.

(** The validator of permissions, as a Boolean formula. *)
Lemma validate_permission_formula p :
  internal.validate_permission p
  = descendingb (group_ids p) && nonzero_weights (group_weights p)
    && (pd_threshold p <=? uint32 (sum_weights (group_weights p))).
Proof.
  unfold internal.validate_permission, group_ids, group_weights.
  rewrite validate_permission_loop_scan, scan_start. simpl.
  rewrite !map_map. simpl.
  destruct (descendingb (map gw_id (pd_groups p)) && nonzero_weights (map gw_weight (pd_groups p)));
    reflexivity.
Qed.

Lemma validate_group_formula {T} `{WeightedKeys T} (g : T) :
  internal.validate_group g
  = negb (threshold_of g =? 0)
    && (descendingb (member_keys (keys_of g)) && nonzero_weights (member_weights (keys_of g))
        && (threshold_of g <=? uint32 (sum_weights (member_weights (keys_of g))))).
Proof.
  unfold internal.validate_group, member_keys, member_weights.
  destruct (threshold_of g =? 0); [reflexivity|].
  rewrite validate_group_loop_scan, scan_start. simpl.
  rewrite !map_map. simpl.
  destruct (descendingb (map kw_key (keys_of g)) && nonzero_weights (map kw_weight (keys_of g)));
    reflexivity.
Qed.

Lemma sum_weights_bound l :
  Forall is_weight l -> 0 <= sum_weights l <= 65535 * Z.of_nat (length l).
Proof.
  unfold is_weight. induction 1 as [|w l Hw _ IH]; simpl; [lia|].
  cbn [sum_weights foldr] in *. lia.
Qed.

(** When the weights add up to less than 2^32 the permission validator
    decides exactly the stated property. *)
Lemma validate_permission_exact p :
  0 <= sum_weights (group_weights p) < 2 ^ 32 ->
  internal.validate_permission p = false <-> permission_invalid p.
Proof.
  intros Hsum. rewrite validate_permission_formula. unfold permission_invalid.
  unfold uint32. rewrite Z.mod_small by exact Hsum.
  rewrite !andb_false_iff, nonzero_weights_spec, Z.leb_gt.
  split.
  - intros [[Hd | Hz] | Hlt]; [left | tauto | tauto].
    intros Hs. apply descendingb_spec in Hs. congruence.
  - intros [Hd | [Hn | [Hz | Hlt]]]; [| | tauto | tauto].
    + left; left. destruct (descendingb (group_ids p)) eqn:E; [|reflexivity].
      exfalso. apply Hd, descendingb_spec, E.
    + left; left. destruct (descendingb (group_ids p)) eqn:E; [|reflexivity].
      exfalso. apply Hn, strictly_descending_NoDup, descendingb_spec, E.
Qed.

Lemma validate_group_exact {T} `{WeightedKeys T} (g : T) :
  0 <= sum_weights (member_weights (keys_of g)) < 2 ^ 32 ->
  internal.validate_group g = false <-> group_invalid g.
Proof.
  intros Hsum. rewrite validate_group_formula. unfold group_invalid.
  unfold uint32. rewrite Z.mod_small by exact Hsum.
  rewrite !andb_false_iff, negb_false_iff, Z.eqb_eq, nonzero_weights_spec, Z.leb_gt.
  split.
  - intros [Ht | [[Hd | Hz] | Hlt]]; [tauto | right; left | tauto | tauto].
    intros Hs. apply descendingb_spec in Hs. congruence.
  - intros [Ht | [Hd | [Hn | [Hz | Hlt]]]]; [tauto | | | tauto | tauto].
    + right; left; left. destruct (descendingb _) eqn:E; [|reflexivity].
      exfalso. apply Hd, descendingb_spec, E.
    + right; left; left. destruct (descendingb _) eqn:E; [|reflexivity].
      exfalso. apply Hn, strictly_descending_NoDup, descendingb_spec, E.
Qed.

End Validation.

Section ValidationOverflow.

Lemma Forall_by_forallb {A} (P : A -> Prop) (b : A -> bool) (l : list A) :
  (forall x, b x = true -> P x) -> forallb b l = true -> Forall P l.
Proof.
  intros Hb H. apply Forall_forall. intros x Hx.
  apply Hb. rewrite forallb_forall in H. apply H. apply list_elem_of_In, Hx.
Qed.

Lemma is_weight_b w : (0 <=? w) && (w <? 2 ^ 16) = true -> is_weight w.
Proof. unfold is_weight. rewrite andb_true_iff, Z.leb_le, Z.ltb_lt. tauto. Qed.

Lemma is_uint32_b x : (0 <=? x) && (x <? 2 ^ 32) = true -> is_uint32 x.
Proof. unfold is_uint32. rewrite andb_true_iff, Z.leb_le, Z.ltb_lt. tauto. Qed.

Lemma is_uint128_b x : (0 <=? x) && (x <? 2 ^ 128) = true -> is_uint128 x.
Proof. unfold is_uint128. rewrite andb_true_iff, Z.leb_le, Z.ltb_lt. tauto. Qed.

(** An accepted permission is never invalid: the wrapped total is at most
    the true total. *)
Lemma validate_permission_sound p :
  Forall is_weight (group_weights p) ->
  internal.validate_permission p = true -> ~ permission_invalid p.
Proof.
  intros Hw. rewrite validate_permission_formula, !andb_true_iff, Z.leb_le.
  intros [[Hd Hz] Hle] Hinv.
  apply descendingb_spec in Hd.
  pose proof (sum_weights_bound _ Hw) as [Hnn _].
  assert (uint32 (sum_weights (group_weights p)) <= sum_weights (group_weights p))
    by (unfold uint32; apply Z.mod_le; lia).
  destruct Hinv as [H1 | [H1 | [H1 | H1]]].
  - exact (H1 Hd).
  - exact (H1 (strictly_descending_NoDup _ Hd)).
  - apply nonzero_weights_spec in H1. congruence.
  - lia.
Qed.

Lemma validate_group_sound {T} `{WeightedKeys T} (g : T) :
  Forall is_weight (member_weights (keys_of g)) ->
  internal.validate_group g = true -> ~ group_invalid g.
Proof.
  intros Hw. rewrite validate_group_formula, !andb_true_iff, negb_true_iff, Z.eqb_neq, Z.leb_le.
  intros [Ht [[Hd Hz] Hle]] Hinv.
  apply descendingb_spec in Hd.
  pose proof (sum_weights_bound _ Hw) as [Hnn _].
  assert (uint32 (sum_weights (member_weights (keys_of g)))
          <= sum_weights (member_weights (keys_of g)))
    by (unfold uint32; apply Z.mod_le; lia).
  destruct Hinv as [H1 | [H1 | [H1 | [H1 | H1]]]].
  - exact (Ht H1).
  - exact (H1 Hd).
  - exact (H1 (strictly_descending_NoDup _ Hd)).
  - apply nonzero_weights_spec in H1. congruence.
  - lia.
Qed.

(** Up to 65537 entries the total cannot wrap. *)
Lemma validate_permission_exact_short p :
  Forall is_weight (group_weights p) ->
  Z.of_nat (length (pd_groups p)) <= 65537 ->
  internal.validate_permission p = false <-> permission_invalid p.
Proof.
  intros Hw Hlen. apply validate_permission_exact.
  pose proof (sum_weights_bound _ Hw) as Hb.
  unfold group_weights in Hb. rewrite length_map in Hb.
  unfold group_weights. change (2 ^ 32) with 4294967296. lia.
Qed.

Lemma validate_group_exact_short {T} `{WeightedKeys T} (g : T) :
  Forall is_weight (member_weights (keys_of g)) ->
  Z.of_nat (length (keys_of g)) <= 65537 ->
  internal.validate_group g = false <-> group_invalid g.
Proof.
  intros Hw Hlen. apply validate_group_exact.
  pose proof (sum_weights_bound _ Hw) as Hb.
  unfold member_weights in Hb. rewrite length_map in Hb.
  unfold member_weights. change (2 ^ 32) with 4294967296. lia.
Qed.

(** C5.  [validate(const permission_def&)] accumulates the weights in a
    [uint32_t] that wraps: the permission [heavy_permission] is well formed,
    its groups are strictly descending without duplicates, no weight is
    zero and the weights add up to 4295032830, far above its threshold
    65535, and yet the validator returns false, because the accumulated
    total is 65534. *)
Theorem validate_permission_wraps_total_weight :
  permission_wf heavy_permission
  /\ strictly_descending (group_ids heavy_permission)
  /\ NoDup (group_ids heavy_permission)
  /\ ~ Exists (fun w => w = 0) (group_weights heavy_permission)
  /\ sum_weights (group_weights heavy_permission) = 4295032830
  /\ pd_threshold heavy_permission = 65535
  /\ ~ permission_invalid heavy_permission
  /\ internal.validate_permission heavy_permission = false.
Proof.
  assert (Hd : strictly_descending (group_ids heavy_permission)).
  { apply descendingb_true. vm_compute. reflexivity. }
  assert (Hz : ~ Exists (fun w => w = 0) (group_weights heavy_permission)).
  { apply nonzero_weights_true. vm_compute. reflexivity. }
  assert (Hs : sum_weights (group_weights heavy_permission) = 4295032830).
  { vm_compute. reflexivity. }
  split; [|split; [|split; [|split; [|split; [|split; [|split]]]]]].
  - split; [|split].
    + apply is_uint32_b. vm_compute. reflexivity.
    + apply (Forall_by_forallb _ _ _ is_uint128_b). vm_compute. reflexivity.
    + apply (Forall_by_forallb _ _ _ is_weight_b). vm_compute. reflexivity.
  - exact Hd.
  - apply strictly_descending_NoDup, Hd.
  - exact Hz.
  - exact Hs.
  - reflexivity.
  - intros [H | [H | [H | H]]].
    + exact (H Hd).
    + exact (H (strictly_descending_NoDup _ Hd)).
    + exact (Hz H).
    + rewrite Hs in H. change (pd_threshold heavy_permission) with 65535 in H. lia.
  - vm_compute. reflexivity.
Qed.

(** C6.  The group validator has the same wrapping accumulator:
    [heavy_group] has a non-zero threshold 65535, strictly descending
    member keys without duplicates, no zero weight and a total weight of
    4295032830, and the validator returns false. *)
Theorem validate_group_wraps_total_weight :
  keys_wf (gd_keys heavy_group)
  /\ gd_threshold heavy_group = 65535
  /\ strictly_descending (member_keys (gd_keys heavy_group))
  /\ NoDup (member_keys (gd_keys heavy_group))
  /\ ~ Exists (fun w => w = 0) (member_weights (gd_keys heavy_group))
  /\ sum_weights (member_weights (gd_keys heavy_group)) = 4295032830
  /\ ~ group_invalid heavy_group
  /\ internal.validate_group heavy_group = false.
Proof.
  assert (Hd : strictly_descending (member_keys (gd_keys heavy_group))).
  { apply descendingb_true. vm_compute. reflexivity. }
  assert (Hz : ~ Exists (fun w => w = 0) (member_weights (gd_keys heavy_group))).
  { apply nonzero_weights_true. vm_compute. reflexivity. }
  assert (Hs : sum_weights (member_weights (gd_keys heavy_group)) = 4295032830).
  { vm_compute. reflexivity. }
  split; [|split; [|split; [|split; [|split; [|split; [|split]]]]]].
  - split.
    + apply (Forall_by_forallb _ (fun k => 0 <=? k)); [intros x; apply Z.leb_le|].
      vm_compute. reflexivity.
    + apply (Forall_by_forallb _ _ _ is_weight_b). vm_compute. reflexivity.
  - reflexivity.
  - exact Hd.
  - apply strictly_descending_NoDup, Hd.
  - exact Hz.
  - exact Hs.
  - intros [H | [H | [H | [H | H]]]].
    + discriminate H.
    + exact (H Hd).
    + exact (H (strictly_descending_NoDup _ Hd)).
    + exact (Hz H).
    + change (keys_of heavy_group) with (gd_keys heavy_group) in H.
      rewrite Hs in H. change (threshold_of heavy_group) with 65535 in H. lia.
  - vm_compute. reflexivity.
Qed.

End ValidationOverflow.

(** ** The handler monad *)

Section MonadLaws.

Context {A B : Type}.

Lemma bind_query (g : token_database -> A) (f : A -> M B) db :
  (query g ≫= f) db = f (g db) db.
Proof. reflexivity. Qed.

Lemma bind_perform (g : token_database -> token_database) (f : unit -> M B) db :
  (perform g ≫= f) db = f tt (g db).
Proof. reflexivity. Qed.

Lemma bind_assert_true what (f : unit -> M B) db :
  (EVT_ASSERT true what ≫= f) db = f tt db.
Proof. reflexivity. Qed.

Lemma bind_assert_false what (f : unit -> M B) db :
  (EVT_ASSERT false what ≫= f) db = (Err (action_validate_exception what), db).
Proof. reflexivity. Qed.

Lemma bind_assert_ok cond what (f : unit -> M B) db b db' :
  (EVT_ASSERT cond what ≫= f) db = (Ok b, db') <-> cond = true /\ f tt db = (Ok b, db').
Proof.
  destruct cond.
  - rewrite bind_assert_true. tauto.
  - rewrite bind_assert_false. split; [discriminate | intros [? _]; discriminate].
Qed.

Lemma bind_ok (m : M A) (f : A -> M B) db b db' :
  (m ≫= f) db = (Ok b, db') <-> exists a db1, m db = (Ok a, db1) /\ f a db1 = (Ok b, db').
Proof.
  unfold mbind, M_bind. destruct (m db) as [[a|e] db1].
  - split; [eauto | intros (a' & db2 & [= -> ->] & H); exact H].
  - split; [discriminate | intros (a' & db2 & [=] & _)].
Qed.

Lemma bind_readonly_ok (m : M A) (f : A -> M B) db b db' :
  readonly m ->
  (m ≫= f) db = (Ok b, db') <-> exists a, m db = (Ok a, db) /\ f a db = (Ok b, db').
Proof.
  intros Hro. rewrite bind_ok. split.
  - intros (a & db1 & Hm & Hf). pose proof (Hro db) as Hdb. rewrite Hm in Hdb.
    simpl in Hdb. subst db1. eauto.
  - intros (a & Hm & Hf). eauto.
Qed.

End MonadLaws.

Section Readonly.

Lemma readonly_ret {A} (a : A) : readonly (mret a).
Proof. intros db. reflexivity. Qed.

Lemma readonly_throw {A} e : readonly (@throw A e).
Proof. intros db. reflexivity. Qed.

Lemma readonly_query {A} (g : token_database -> A) : readonly (query g).
Proof. intros db. reflexivity. Qed.

Lemma readonly_assert cond what : readonly (EVT_ASSERT cond what).
Proof. destruct cond; intros db; reflexivity. Qed.

Lemma readonly_bind {A B} (m : M A) (f : A -> M B) :
  readonly m -> (forall a, readonly (f a)) -> readonly (m ≫= f).
Proof.
  intros Hm Hf db. unfold mbind, M_bind.
  specialize (Hm db). destruct (m db) as [[a|e] db1]; simpl in Hm; subst db1.
  - apply Hf.
  - reflexivity.
Qed.

Lemma readonly_for_each {A} (l : list A) (body : A -> M unit) :
  (forall x, readonly (body x)) -> readonly (for_each l body).
Proof.
  intros Hb. induction l as [|x l IH]; simpl.
  - apply readonly_ret.
  - apply readonly_bind; [apply Hb | intros _; exact IH].
Qed.

Lemma readonly_check_group groups allowed g : readonly (checker.check_group groups allowed g).
Proof.
  unfold checker.check_group. destruct (group_id_empty (gw_id g)).
  - apply readonly_assert.
  - apply readonly_bind; [apply readonly_query | intros; apply readonly_assert].
Qed.

Lemma readonly_permission_checker groups p allowed :
  readonly (make_permission_checker groups p allowed).
Proof. apply readonly_for_each. intros; apply readonly_check_group. Qed.

Lemma readonly_check_inline_group fgk g : readonly (check_inline_group fgk g).
Proof. apply readonly_bind; [apply readonly_assert | intros; apply readonly_assert]. Qed.

Lemma infallible_perform g : infallible (perform g).
Proof. intros db. eexists _, _. reflexivity. Qed.

Lemma infallible_bind {A B} (m : M A) (f : A -> M B) :
  infallible m -> (forall a, infallible (f a)) -> infallible (m ≫= f).
Proof.
  intros Hm Hf db. destruct (Hm db) as (a & db1 & E).
  destruct (Hf a db1) as (b & db2 & E2).
  exists b, db2. unfold mbind, M_bind. rewrite E. exact E2.
Qed.

Lemma infallible_for_each_perform {A} (l : list A) (g : A -> token_database -> token_database) :
  infallible (for_each l (fun x => perform (g x))).
Proof.
  induction l as [|x l IH]; simpl.
  - intros db. eexists _, _. reflexivity.
  - apply infallible_bind; [apply infallible_perform | intros _; exact IH].
Qed.

Lemma commit_infallible {A} (m : M A) : infallible m -> writes_nothing_on_failure m.
Proof. intros Hm db e db' E. destruct (Hm db) as (a & db1 & E1). congruence. Qed.

Lemma commit_readonly {A} (m : M A) : readonly m -> writes_nothing_on_failure m.
Proof. intros Hm db e db' E. specialize (Hm db). rewrite E in Hm. exact Hm. Qed.

(** Checks first, writes after: a read-only prefix keeps the property. *)
Lemma commit_after_check {A B} (m : M A) (f : A -> M B) :
  readonly m -> (forall a, writes_nothing_on_failure (f a)) ->
  writes_nothing_on_failure (m ≫= f).
Proof.
  intros Hm Hf db e db' E. unfold mbind, M_bind in E.
  specialize (Hm db). destruct (m db) as [[a|e1] db1]; simpl in Hm; subst db1.
  - eapply Hf, E.
  - congruence.
Qed.

End Readonly.

Create HintDb readonly.
Create HintDb infallible.

#[local] Hint Resolve readonly_ret readonly_throw readonly_query readonly_assert
  readonly_for_each readonly_check_group readonly_permission_checker
  readonly_check_inline_group readonly_bind : readonly.

#[local] Hint Resolve infallible_perform infallible_bind infallible_for_each_perform
  : infallible.

(** Peel the read-only checks off a handler, then show that what is left
    cannot throw. *)
Ltac validate_then_commit :=
  repeat first
    [ apply commit_after_check; [solve [auto 6 with readonly] | intros]
    | match goal with
      | |- context [match ?o with Some _ => _ | None => _ end] => destruct o
      | |- context [match ?x with pair _ _ => _ end] => destruct x
      end ];
  first [ apply commit_infallible; solve [auto 6 with infallible]
        | apply commit_readonly; solve [auto 6 with readonly] ].

Section ValidateThenCommit.

Variable system_account_name : name128.
Variable from_group_key : public_key_type -> group_id.
Variable context : apply_context.
Context {sm : SafeMath}.

Lemma newdomain_commit ndact :
  writes_nothing_on_failure (apply_evt_newdomain from_group_key context ndact).
Proof. unfold apply_evt_newdomain. validate_then_commit. Qed.

Lemma issuetoken_commit itact :
  writes_nothing_on_failure (apply_evt_issuetoken context itact).
Proof.
  unfold apply_evt_issuetoken.
  do 4 (apply commit_after_check; [solve [auto with readonly] | intros]).
  apply commit_after_check.
  - apply readonly_for_each. intros n. auto with readonly.
  - intros. apply commit_infallible. auto with infallible.
Qed.

Lemma transfer_commit ttact :
  writes_nothing_on_failure (apply_evt_transfer context ttact).
Proof. unfold apply_evt_transfer. validate_then_commit. Qed.

Lemma updategroup_commit ugact :
  writes_nothing_on_failure (apply_evt_updategroup context ugact).
Proof. unfold apply_evt_updategroup. validate_then_commit. Qed.

Lemma updatedomain_commit udact :
  writes_nothing_on_failure (apply_evt_updatedomain from_group_key context udact).
Proof.
  unfold apply_evt_updatedomain.
  do 5 (apply commit_after_check; [solve [auto with readonly] | intros]).
  do 3 (apply commit_after_check;
        [ match goal with
          | |- readonly (match ?o with Some _ => _ | None => _ end) =>
              destruct o; auto 6 with readonly
          end
        | intros ]).
  apply commit_infallible. auto with infallible.
Qed.

Lemma newaccount_commit naact :
  writes_nothing_on_failure (apply_evt_newaccount system_account_name context naact).
Proof. unfold apply_evt_newaccount. validate_then_commit. Qed.

Lemma updateowner_commit uoact :
  writes_nothing_on_failure (apply_evt_updateowner context uoact).
Proof. unfold apply_evt_updateowner. validate_then_commit. Qed.

Lemma transferevt_commit teact :
  writes_nothing_on_failure (apply_evt_transferevt context teact).
Proof.
  unfold apply_evt_transferevt. validate_then_commit.
Qed.

(** The same for the handler of any action. *)
Lemma apply_action_commit act :
  writes_nothing_on_failure (apply_action system_account_name from_group_key context act).
Proof.
  destruct act; simpl.
  - apply newdomain_commit.
  - apply issuetoken_commit.
  - apply transfer_commit.
  - apply updategroup_commit.
  - apply updatedomain_commit.
  - apply newaccount_commit.
  - apply updateowner_commit.
  - apply transferevt_commit.
Qed.

End ValidateThenCommit.

(** ** Accounts *)

Section Transfers.

Variable system_account_name : name128.
Variable from_group_key : public_key_type -> group_id.
Variable context : apply_context.
Context {sm : SafeMath}.

Lemma exists_account_true name db :
  tokendb.exists_account name db = true <-> is_Some (db_accounts db !! name).
Proof. unfold tokendb.exists_account. apply bool_decide_eq_true. Qed.

Lemma stored_balance_update_account ua db n :
  stored_balance (tokendb.update_account ua db) n
  = if decide (ua_name ua = n)
    then (fun b => default b (amount <$> ua_balance ua)) <$> stored_balance db n
    else stored_balance db n.
Proof.
  unfold stored_balance, tokendb.update_account. simpl.
  rewrite lookup_alter. case_decide as Hn.
  - subst n. destruct (db_accounts db !! ua_name ua) as [a|]; simpl; [|reflexivity].
    destruct (ua_balance ua); reflexivity.
  - reflexivity.
Qed.

(** When a [transferevt] succeeds, and what it has then written, whatever
    the two helpers do. *)
Lemma transferevt_succeeds teact db db' :
  succeeds (apply_evt_transferevt context teact) db db' <->
  exists facc tacc,
    let amt := amount (te_amount teact) in
    let sub := test_sub (amount (ad_balance facc)) amt (amount (ad_balance facc)) in
    let add := test_add (amount (ad_balance tacc)) amt (amount (ad_balance tacc)) in
    has_authorized context "account" (key_of_name (te_from teact)) = true
    /\ db_accounts db !! te_from teact = Some facc
    /\ db_accounts db !! te_to teact = Some tacc
    /\ 0 < amt <= amount (ad_balance facc)
    /\ sub.1 = true
    /\ add.1 = true
    /\ db' = transferevt_result teact facc tacc sub.2 add.2 db.
Proof.
  unfold succeeds, apply_evt_transferevt, tokendb.read_account, asset_ge. cbv zeta.
  split.
  - intros (u & E).
    apply bind_assert_ok in E as [Hauth E]. rewrite bind_query in E.
    apply bind_assert_ok in E as [Hf E]. rewrite bind_query in E.
    apply bind_assert_ok in E as [Ht E].
    apply bind_assert_ok in E as [Hpos E]. rewrite !bind_query in E.
    apply bind_assert_ok in E as [Hbal E].
    apply exists_account_true in Hf as [facc Hf].
    apply exists_account_true in Ht as [tacc Ht].
    rewrite Hf, Ht in *. simpl in *.
    exists facc, tacc.
    destruct (test_sub _ _ _) as [r1 fbal], (test_add _ _ _) as [r2 tbal].
    apply bind_assert_ok in E as [Hr E]. rewrite bind_perform in E.
    apply andb_true_iff in Hr as [Hr1 Hr2]. simpl.
    repeat split; try assumption; try lia.
    unfold perform in E. injection E as _ <-. reflexivity.
  - intros (facc & tacc & Hauth & Hf & Ht & [Hpos Hbal] & Hr1 & Hr2 & ->).
    exists tt. rewrite Hauth, bind_assert_true, bind_query.
    replace (tokendb.exists_account (te_from teact) db) with true
      by (symmetry; apply exists_account_true; eauto).
    rewrite bind_assert_true, bind_query.
    replace (tokendb.exists_account (te_to teact) db) with true
      by (symmetry; apply exists_account_true; eauto).
    rewrite bind_assert_true.
    replace (0 <? amount (te_amount teact)) with true by (symmetry; apply Z.ltb_lt; lia).
    rewrite bind_assert_true, !bind_query, Hf, Ht. simpl.
    replace (amount (te_amount teact) <=? amount (ad_balance facc)) with true
      by (symmetry; apply Z.leb_le; lia).
    rewrite bind_assert_true.
    destruct (test_sub _ _ _) as [r1 fbal], (test_add _ _ _) as [r2 tbal].
    simpl in Hr1, Hr2. subst r1 r2. reflexivity.
Qed.

(** The balances after the two writes: the debit is visible only when the
    two accounts differ, the credit always. *)
Lemma transferevt_result_balances teact facc tacc fbal tbal db :
  accounts_wf db ->
  db_accounts db !! te_from teact = Some facc ->
  db_accounts db !! te_to teact = Some tacc ->
  let db' := transferevt_result teact facc tacc fbal tbal db in
  stored_balance db' (te_to teact) = Some (wrap_int64 (tbal + amount (te_amount teact)))
  /\ (te_from teact <> te_to teact ->
      stored_balance db' (te_from teact) = Some (wrap_int64 (fbal - amount (te_amount teact)))).
Proof.
  intros Hwf Hf Ht db'. subst db'.
  pose proof (Hwf _ _ Hf) as Hfn. pose proof (Hwf _ _ Ht) as Htn.
  unfold transferevt_result. cbv zeta. rewrite !stored_balance_update_account. simpl.
  rewrite Hfn, Htn. split.
  - rewrite decide_True by reflexivity.
    unfold stored_balance. rewrite Ht. simpl.
    destruct (decide (te_from teact = te_to teact)); reflexivity.
  - intros Hne. rewrite decide_False by congruence. rewrite decide_True by reflexivity.
    unfold stored_balance. rewrite Hf. reflexivity.
Qed.

(** C3.  Whatever the action, a handler that throws has written nothing:
    the database it leaves is the database it was given, contents and
    journal of writes, and what it throws is a validation error.  In
    particular a [transferevt] whose source balance is too small, or for
    which [test_sub] or [test_add] reports an overflow, throws and leaves
    the database as it was. *)
Theorem failed_action_writes_nothing act teact facc tacc db :
  (forall e db',
     apply_action system_account_name from_group_key context act db = (Err e, db') ->
     db' = db /\ exists what, e = action_validate_exception what)
  /\ (db_accounts db !! te_from teact = Some facc ->
      db_accounts db !! te_to teact = Some tacc ->
      amount (ad_balance facc) < amount (te_amount teact)
      \/ (test_sub (amount (ad_balance facc)) (amount (te_amount teact))
            (amount (ad_balance facc))).1 = false
      \/ (test_add (amount (ad_balance tacc)) (amount (te_amount teact))
            (amount (ad_balance tacc))).1 = false ->
      exists what,
        apply_evt_transferevt context teact db = (Err (action_validate_exception what), db)).
Proof.
  split.
  - intros e db' E. split; [|destruct e; eauto].
    eapply apply_action_commit, E.
  - intros Hf Ht Hbad.
    destruct (apply_evt_transferevt context teact db) as [[[]|[what]] db1] eqn:E.
    + exfalso.
      assert (Hs : succeeds (apply_evt_transferevt context teact) db db1) by (exists tt; exact E).
      apply transferevt_succeeds in Hs as (facc' & tacc' & _ & Hf' & Ht' & Hb & Hr1 & Hr2 & _).
      rewrite Hf in Hf'. injection Hf' as <-. rewrite Ht in Ht'. injection Ht' as <-.
      destruct Hbad as [H | [H | H]]; [lia | congruence | congruence].
    + exists what. f_equal. eapply transferevt_commit, E.
Qed.

(** Were the helpers to leave their third argument as it is, a transfer
    between two different accounts would move the amount once. *)
Lemma transferevt_once_if_result_untouched teact db db' fb tb :
  (forall a b r, (test_sub a b r).2 = r) ->
  (forall a b r, (test_add a b r).2 = r) ->
  accounts_wf db ->
  te_from teact <> te_to teact ->
  stored_balance db (te_from teact) = Some fb ->
  stored_balance db (te_to teact) = Some tb ->
  succeeds (apply_evt_transferevt context teact) db db' ->
  stored_balance db' (te_from teact) = Some (wrap_int64 (fb - amount (te_amount teact)))
  /\ stored_balance db' (te_to teact) = Some (wrap_int64 (tb + amount (te_amount teact))).
Proof.
  intros Hsub Hadd Hwf Hne Hfb Htb Hs.
  apply transferevt_succeeds in Hs as (facc & tacc & _ & Hf & Ht & _ & _ & _ & ->).
  unfold stored_balance in Hfb, Htb. rewrite Hf in Hfb. rewrite Ht in Htb.
  simpl in Hfb, Htb. injection Hfb as Hfb. injection Htb as Htb.
  destruct (transferevt_result_balances teact facc tacc
              (test_sub (amount (ad_balance facc)) (amount (te_amount teact))
                 (amount (ad_balance facc))).2
              (test_add (amount (ad_balance tacc)) (amount (te_amount teact))
                 (amount (ad_balance tacc))).2 db Hwf Hf Ht) as [Hto Hfrom].
  rewrite Hto, (Hfrom Hne), Hsub, Hadd, Hfb, Htb. tauto.
Qed.

(** Even then a transfer to oneself would end with the credit. *)
Lemma transferevt_to_self_if_result_untouched teact db db' b :
  (forall a b r, (test_add a b r).2 = r) ->
  accounts_wf db ->
  te_from teact = te_to teact ->
  stored_balance db (te_from teact) = Some b ->
  succeeds (apply_evt_transferevt context teact) db db' ->
  stored_balance db' (te_from teact) = Some (wrap_int64 (b + amount (te_amount teact))).
Proof.
  intros Hadd Hwf Heq Hb Hs.
  apply transferevt_succeeds in Hs as (facc & tacc & _ & Hf & Ht & _ & _ & _ & ->).
  unfold stored_balance in Hb. rewrite Hf in Hb. simpl in Hb. injection Hb as Hb.
  destruct (transferevt_result_balances teact facc tacc
              (test_sub (amount (ad_balance facc)) (amount (te_amount teact))
                 (amount (ad_balance facc))).2
              (test_add (amount (ad_balance tacc)) (amount (te_amount teact))
                 (amount (ad_balance tacc))).2 db Hwf Hf Ht) as [Hto _].
  rewrite Heq, Hto, Hadd.
  rewrite <- Heq in Ht. rewrite Hf in Ht. injection Ht as <-. rewrite Hb. reflexivity.
Qed.

(** C8.  A successful [newaccount] stores, under the name of the action, an
    account with balance 10000, frozen balance 0, the system account as
    creator and the owner of the action; [read_account] returns that record.
    The write is a single [add_account]. *)
Theorem newaccount_then_read naact db db' :
  succeeds (apply_evt_newaccount system_account_name context naact) db db' ->
  exists account,
    tokendb.read_account (na_name naact) db' = Some account
    /\ ad_name account = na_name naact
    /\ ad_balance account = mk_asset 10000
    /\ ad_frozen_balance account = mk_asset 0
    /\ ad_creator account = system_account_name
    /\ ad_owner account = na_owner naact
    /\ db_journal db' = db_journal db ++ [w_add_account account].
Proof.
  unfold succeeds, apply_evt_newaccount. intros (u & E).
  apply bind_assert_ok in E as [_ E].
  apply bind_assert_ok in E as [_ E]. rewrite bind_query in E.
  apply bind_assert_ok in E as [_ E].
  unfold perform in E. injection E as _ <-.
  eexists. split.
  - unfold tokendb.read_account, tokendb.add_account. simpl. apply lookup_insert_eq.
  - simpl. repeat split; reflexivity.
Qed.

End Transfers.

(** With the checked helpers of [safemath]. *)
Section CheckedTransfers.

Variable context : apply_context.

Lemma in_int64_range x : in_int64 x = true <-> - 9223372036854775808 <= x <= 9223372036854775807.
Proof. unfold in_int64, int64_min, int64_max. rewrite andb_true_iff, Z.leb_le, Z.leb_le. lia. Qed.

Lemma wrap_int64_small x : in_int64 x = true -> wrap_int64 x = x.
Proof.
  rewrite in_int64_range. intros H. unfold wrap_int64.
  change (2 ^ 63) with 9223372036854775808. change (2 ^ 64) with 18446744073709551616.
  rewrite Z.mod_small; lia.
Qed.

Lemma wrap_int64_fixpoint x d :
  wrap_int64 (x + d) = x -> 0 < d < 18446744073709551616 -> False.
Proof.
  unfold wrap_int64.
  change (2 ^ 63) with 9223372036854775808. change (2 ^ 64) with 18446744073709551616.
  intros H Hd.
  pose proof (Z.div_mod (x + d + 9223372036854775808) 18446744073709551616 ltac:(lia)) as Hdm.
  pose proof (Z.mod_pos_bound (x + d + 9223372036854775808) 18446744073709551616 ltac:(lia)).
  lia.
Qed.

(** C1.  A successful [transferevt] between two different accounts applies
    the amount twice on each side: [safemath::test_sub] and
    [safemath::test_add] are handed the local balances as their result
    argument, and [-=] and [+=] then apply the amount again.  The stored
    balance of [from] goes down by twice the amount and the one of [to] up
    by twice the amount (modulo 2^64); neither is the old balance changed
    by the amount. *)
Theorem transferevt_applies_amount_twice teact db db' fb tb :
  accounts_wf db ->
  te_from teact <> te_to teact ->
  stored_balance db (te_from teact) = Some fb ->
  stored_balance db (te_to teact) = Some tb ->
  in_int64 fb = true ->
  succeeds (apply_evt_transferevt context teact) db db' ->
  stored_balance db' (te_from teact) = Some (fb - 2 * amount (te_amount teact))
  /\ stored_balance db' (te_to teact) = Some (wrap_int64 (tb + 2 * amount (te_amount teact)))
  /\ stored_balance db' (te_from teact) <> Some (fb - amount (te_amount teact))
  /\ stored_balance db' (te_to teact) <> Some (tb + amount (te_amount teact)).
Proof.
  intros Hwf Hne Hfb Htb Hfr Hs.
  apply transferevt_succeeds in Hs
    as (facc & tacc & _ & Hf & Ht & [Hpos Hbal] & Hr1 & Hr2 & ->).
  unfold stored_balance in Hfb, Htb. rewrite Hf in Hfb. rewrite Ht in Htb.
  simpl in Hfb, Htb. injection Hfb as Hfb. injection Htb as Htb.
  destruct (transferevt_result_balances teact facc tacc
              (test_sub (amount (ad_balance facc)) (amount (te_amount teact))
                 (amount (ad_balance facc))).2
              (test_add (amount (ad_balance tacc)) (amount (te_amount teact))
                 (amount (ad_balance tacc))).2 db Hwf Hf Ht) as [Hto Hfrom].
  rewrite Hto, (Hfrom Hne). simpl in *. rewrite Hfb, Htb in *.
  set (amt := amount (te_amount teact)) in *.
  rewrite (wrap_int64_small (fb - amt)) by exact Hr1.
  rewrite (wrap_int64_small (tb + amt)) by exact Hr2.
  apply in_int64_range in Hfr, Hr1, Hr2.
  assert (Hfrom2 : wrap_int64 (fb - amt - amt) = fb - 2 * amt).
  { rewrite wrap_int64_small; [lia|]. apply in_int64_range. lia. }
  rewrite Hfrom2. replace (tb + amt + amt) with (tb + 2 * amt) by lia.
  repeat split.
  - intros [= H]. lia.
  - intros [= H]. apply (wrap_int64_fixpoint (tb + amt) amt); [|lia].
    rewrite <- H at 2. f_equal. lia.
Qed.

(** C2.  A successful [transferevt] from an account to itself reads the
    record twice and writes it twice; the second write, the credit, is the
    one that stays.  The stored balance becomes the old one plus twice the
    amount (modulo 2^64) and is never the old one: the transfer creates
    value. *)
Theorem transferevt_to_self_creates_value teact db db' b :
  accounts_wf db ->
  te_from teact = te_to teact ->
  stored_balance db (te_from teact) = Some b ->
  in_int64 b = true ->
  succeeds (apply_evt_transferevt context teact) db db' ->
  stored_balance db' (te_from teact) = Some (wrap_int64 (b + 2 * amount (te_amount teact)))
  /\ stored_balance db' (te_from teact) <> Some b.
Proof.
  intros Hwf Heq Hb Hr Hs.
  apply transferevt_succeeds in Hs
    as (facc & tacc & _ & Hf & Ht & [Hpos Hbal] & Hr1 & Hr2 & ->).
  destruct (transferevt_result_balances teact facc tacc
              (test_sub (amount (ad_balance facc)) (amount (te_amount teact))
                 (amount (ad_balance facc))).2
              (test_add (amount (ad_balance tacc)) (amount (te_amount teact))
                 (amount (ad_balance tacc))).2 db Hwf Hf Ht) as [Hto _].
  rewrite Heq, Hto.
  rewrite <- Heq in Ht. rewrite Hf in Ht. injection Ht as <-.
  unfold stored_balance in Hb. rewrite Hf in Hb. simpl in Hb. injection Hb as Hb.
  simpl in *. rewrite Hb in *.
  set (amt := amount (te_amount teact)) in *.
  rewrite (wrap_int64_small (b + amt)) by exact Hr2.
  replace (b + amt + amt) with (b + 2 * amt) by lia.
  split; [reflexivity|].
  intros [= H]. apply in_int64_range in Hr, Hr1, Hr2.
  apply (wrap_int64_fixpoint b (2 * amt)); [exact H | lia].
Qed.

End CheckedTransfers.

(** ** Domains, groups and tokens *)

Section Loops.

Lemma succeeds_unit (m : M unit) db db' : succeeds m db db' <-> m db = (Ok tt, db').
Proof.
  unfold succeeds. split; [intros ([] & E); exact E | eauto].
Qed.

Lemma assert_ok cond what db db' :
  EVT_ASSERT cond what db = (Ok tt, db') <-> cond = true /\ db' = db.
Proof.
  destruct cond; simpl; unfold mret, M_ret, throw.
  - split; [intros [= <-]; tauto | intros [_ ->]; reflexivity].
  - split; [discriminate | intros [? _]; discriminate].
Qed.

Lemma bind_assoc {A B C} (m : M A) (g : A -> M B) (f : B -> M C) db :
  ((m ≫= g) ≫= f) db = (m ≫= (fun a => g a ≫= f)) db.
Proof.
  unfold mbind, M_bind. destruct (m db) as [[a|e] db1]; reflexivity.
Qed.

(** A loop of checks followed by [f] succeeds exactly when every check
    passes on the database as it is and [f] succeeds. *)
Lemma for_each_check_bind {A B} (l : list A) (body : A -> M unit) (f : unit -> M B) db b db' :
  (forall x, readonly (body x)) ->
  (for_each l body ≫= f) db = (Ok b, db')
  <-> Forall (fun x => body x db = (Ok tt, db)) l /\ f tt db = (Ok b, db').
Proof.
  intros Hro. induction l as [|x l IH]; simpl.
  - split; [intros E; split; [constructor | exact E] | intros [_ E]; exact E].
  - rewrite bind_assoc, bind_readonly_ok by apply Hro. rewrite Forall_cons. split.
    + intros ([] & Hx & E). apply IH in E. tauto.
    + intros [[Hx Hl] E]. exists tt. split; [exact Hx|]. apply IH. tauto.
Qed.

Lemma for_each_perform {A} (l : list A) (g : A -> token_database -> token_database) db :
  for_each l (fun x => perform (g x)) db = (Ok tt, foldl (fun db x => g x db) db l).
Proof.
  revert db. induction l as [|x l IH]; intros db; simpl; [reflexivity|].
  rewrite bind_perform. apply IH.
Qed.

End Loops.

Section Resolver.

Lemma exists_group_true id db :
  tokendb.exists_group id db = true <-> in_store db id.
Proof. unfold tokendb.exists_group. apply bool_decide_eq_true. Qed.

Lemma defexisted_true groups id :
  checker.defexisted groups id = true <-> defined_inline groups id.
Proof.
  unfold checker.defexisted, defined_inline. rewrite existsb_exists. split.
  - intros (gd & Hin & E). exists gd. split; [apply list_elem_of_In, Hin | apply Z.eqb_eq, E].
  - intros (gd & Hin & E). exists gd. split; [apply list_elem_of_In, Hin | apply Z.eqb_eq, E].
Qed.

Lemma xorb_exactly_one (a b : bool) (P Q : Prop) :
  (a = true <-> P) -> (b = true <-> Q) -> xorb a b = true <-> exactly_one P Q.
Proof.
  unfold exactly_one. intros HP HQ.
  destruct a, b; simpl; split; try discriminate; try tauto; intuition discriminate.
Qed.

(** One entry of the permission passes the resolver exactly when it is
    accepted. *)
Lemma check_group_ok groups allowed g db :
  checker.check_group groups allowed g db = (Ok tt, db) <-> group_accepted groups allowed db g.
Proof.
  unfold checker.check_group, group_accepted, group_id_empty.
  destruct (Z.eqb_spec (gw_id g) 0) as [E|E].
  - rewrite assert_ok. split; [intros [-> _]; tauto | intros [H _]; auto].
  - rewrite bind_query, assert_ok.
    rewrite (xorb_exactly_one _ _ _ _ (exists_group_true _ _) (defexisted_true _ _)).
    tauto.
Qed.

Lemma permission_checker_bind {B} groups p allowed (f : unit -> M B) db b db' :
  (make_permission_checker groups p allowed ≫= f) db = (Ok b, db')
  <-> permission_resolved groups allowed db p /\ f tt db = (Ok b, db').
Proof.
  unfold make_permission_checker, permission_resolved.
  rewrite for_each_check_bind by apply readonly_check_group.
  assert (Hall : Forall (fun g => checker.check_group groups allowed g db = (Ok tt, db)) (pd_groups p)
                 <-> Forall (group_accepted groups allowed db) (pd_groups p)).
  { apply Forall_iff. intros g. apply check_group_ok. }
  tauto.
Qed.

Lemma permission_checker_ok groups p allowed db :
  make_permission_checker groups p allowed db = (Ok tt, db)
  <-> permission_resolved groups allowed db p.
Proof.
  unfold make_permission_checker, permission_resolved.
  induction (pd_groups p) as [|g l IH]; simpl.
  - split; [constructor | reflexivity].
  - rewrite bind_readonly_ok by apply readonly_check_group.
    rewrite Forall_cons, <- IH, <- check_group_ok. split.
    + intros ([] & H1 & H2). tauto.
    + intros [H1 H2]. exists tt. tauto.
Qed.

End Resolver.

Section Domains.

Variable from_group_key : public_key_type -> group_id.
Variable context : apply_context.

Lemma exists_domain_false name db :
  negb (tokendb.exists_domain name db) = true <-> db_domains db !! name = None.
Proof.
  unfold tokendb.exists_domain. rewrite negb_true_iff, bool_decide_eq_false.
  rewrite <- eq_None_not_Some. tauto.
Qed.

Lemma name_not_empty n : negb (name_empty n) = true <-> n <> "".
Proof.
  unfold name_empty. rewrite negb_true_iff. destruct (String.eqb_spec n ""); split; congruence.
Qed.

Lemma check_inline_group_ok g db :
  check_inline_group from_group_key g db = (Ok tt, db)
  <-> internal.validate_group g = true /\ gd_id g = from_group_key (gd_key g).
Proof.
  unfold check_inline_group. rewrite bind_assert_ok, assert_ok, Z.eqb_eq. tauto.
Qed.

(** A [newdomain] succeeds exactly when its checks pass and the resolver
    accepts the three permissions, [issue] and [manage] without the owner
    group and [transfer] with it; it then adds the domain and the inline
    groups. *)
Lemma newdomain_succeeds ndact db db' :
  succeeds (apply_evt_newdomain from_group_key context ndact) db db'
  <-> newdomain_validated from_group_key context ndact db
      /\ permission_resolved (nd_groups ndact) false db (nd_issue ndact)
      /\ permission_resolved (nd_groups ndact) true db (nd_transfer ndact)
      /\ permission_resolved (nd_groups ndact) false db (nd_manage ndact)
      /\ db' = newdomain_result context ndact db.
Proof.
  rewrite succeeds_unit. unfold apply_evt_newdomain, newdomain_validated. cbv zeta.
  rewrite bind_assert_ok, bind_query, bind_assert_ok.
  rewrite for_each_check_bind by apply readonly_check_inline_group.
  rewrite !bind_assert_ok, !permission_checker_bind, bind_perform, for_each_perform.
  rewrite exists_domain_false, name_not_empty, !andb_true_iff, !Z.ltb_lt, !String.eqb_eq.
  assert (Hall : Forall (fun g => check_inline_group from_group_key g db = (Ok tt, db)) (nd_groups ndact)
                 <-> Forall (fun g => internal.validate_group g = true
                                      /\ gd_id g = from_group_key (gd_key g)) (nd_groups ndact)).
  { apply Forall_iff. intros g. apply check_inline_group_ok. }
  rewrite Hall. unfold newdomain_result, domain_of.
  split.
  - intros (? & ? & ? & ? & ? & ? & ? & ? & ? & ? & ? & ? & ? & [= <-]). tauto.
  - intros ((? & ? & ? & ? & (? & ? & ?) & (? & ? & ?) & ? & ?) & ? & ? & ? & ->). tauto.
Qed.

Lemma add_groups_journal l db :
  db_journal (foldl (fun db g => tokendb.add_group g db) db l)
  = db_journal db ++ map w_add_group l.
Proof.
  revert db. induction l as [|g l IH]; intros db; simpl.
  - rewrite app_nil_r. reflexivity.
  - rewrite IH. simpl. rewrite <- app_assoc. reflexivity.
Qed.

Lemma add_groups_domains l db :
  db_domains (foldl (fun db g => tokendb.add_group g db) db l) = db_domains db.
Proof.
  revert db. induction l as [|g l IH]; intros db; simpl; [reflexivity|].
  rewrite IH. reflexivity.
Qed.

Lemma add_groups_other l db id :
  id ∉ map gd_id l ->
  db_groups (foldl (fun db g => tokendb.add_group g db) db l) !! id = db_groups db !! id.
Proof.
  revert db. induction l as [|g l IH]; intros db Hid; simpl; [reflexivity|].
  simpl in Hid. apply not_elem_of_cons in Hid as [Hne Hid].
  rewrite IH by exact Hid. simpl. apply lookup_insert_ne. congruence.
Qed.

(** After the inline groups are added, the id of each of them holds one of
    the inline groups with that id. *)
Lemma add_groups_lookup l : forall db g,
  g ∈ l ->
  exists g', g' ∈ l /\ gd_id g' = gd_id g
             /\ db_groups (foldl (fun db g => tokendb.add_group g db) db l) !! gd_id g = Some g'.
Proof.
  induction l as [|x l IH]; intros db g Hin; [inversion Hin|].
  simpl. destruct (decide (gd_id g ∈ map gd_id l)) as [Hlater|Hlast].
  - apply list_elem_of_fmap in Hlater as (g2 & Hid & Hg2).
    destruct (IH (tokendb.add_group x db) g2 Hg2) as (g' & Hg' & Hid' & Hlook).
    exists g'. split; [right; exact Hg'|]. split; [congruence|].
    rewrite Hid. exact Hlook.
  - assert (g = x) as ->.
    { apply elem_of_cons in Hin as [E|Hin]; [exact E|].
      exfalso. apply Hlast. apply list_elem_of_fmap. eauto. }
    exists x. split; [left|]. split; [reflexivity|].
    rewrite add_groups_other by exact Hlast. simpl. apply lookup_insert_eq.
Qed.

Lemma add_groups_lookup_nodup l db g :
  NoDup (map gd_id l) -> g ∈ l ->
  db_groups (foldl (fun db g => tokendb.add_group g db) db l) !! gd_id g = Some g.
Proof.
  intros Hnd Hin. destruct (add_groups_lookup l db g Hin) as (g' & Hg' & Hid & Hlook).
  rewrite Hlook. f_equal.
  apply list_elem_of_lookup in Hin as [i Hi]. apply list_elem_of_lookup in Hg' as [j Hj].
  assert (i = j); [|congruence].
  eapply NoDup_lookup; [exact Hnd | |].
  - rewrite list_lookup_fmap, Hi. reflexivity.
  - rewrite list_lookup_fmap, Hj. simpl. congruence.
Qed.

(** C7.  The group resolver accepts an entry with a non-empty id exactly
    when the id is in the store or among the inline definitions but not
    both, and an entry with the empty id exactly when the caller allows the
    owner group; a permission passes when all its entries are accepted.
    [newdomain] runs the resolver with the owner group allowed for
    [transfer] and not allowed for [issue] and [manage]. *)
Theorem group_resolver_accepts groups p allowed g ndact db :
  (checker.check_group groups allowed g db = (Ok tt, db)
   <-> (gw_id g = 0 -> allowed = true)
       /\ (gw_id g <> 0 ->
           exactly_one (in_store db (gw_id g)) (defined_inline groups (gw_id g))))
  /\ (make_permission_checker groups p allowed db = (Ok tt, db)
      <-> Forall (group_accepted groups allowed db) (pd_groups p))
  /\ ((exists db', succeeds (apply_evt_newdomain from_group_key context ndact) db db')
      <-> newdomain_validated from_group_key context ndact db
          /\ permission_resolved (nd_groups ndact) false db (nd_issue ndact)
          /\ permission_resolved (nd_groups ndact) true db (nd_transfer ndact)
          /\ permission_resolved (nd_groups ndact) false db (nd_manage ndact)).
Proof.
  split; [apply check_group_ok|]. split; [apply permission_checker_ok|]. split.
  - intros (db' & H). apply newdomain_succeeds in H. tauto.
  - intros H. exists (newdomain_result context ndact db). apply newdomain_succeeds. tauto.
Qed.

(** C9.  A successful [newdomain] issues one [add_domain] and then one
    [add_group] for every inline group of the action, in the order of the
    list and whether or not a permission refers to the group.  The domain
    is then stored under its name, and every inline group's id holds an
    inline group with that id (the group itself when the inline ids are
    distinct). *)
Theorem newdomain_adds_domain_then_groups ndact db db' :
  succeeds (apply_evt_newdomain from_group_key context ndact) db db' ->
  db_journal db'
  = db_journal db ++ w_add_domain (domain_of context ndact) :: map w_add_group (nd_groups ndact)
  /\ db_domains db' !! nd_name ndact = Some (domain_of context ndact)
  /\ (forall g, g ∈ nd_groups ndact ->
        exists g', g' ∈ nd_groups ndact /\ gd_id g' = gd_id g
                   /\ db_groups db' !! gd_id g = Some g')
  /\ (NoDup (map gd_id (nd_groups ndact)) ->
      forall g, g ∈ nd_groups ndact -> db_groups db' !! gd_id g = Some g).
Proof.
  intros H. apply newdomain_succeeds in H as (_ & _ & _ & _ & ->).
  unfold newdomain_result. split; [|split; [|split]].
  - rewrite add_groups_journal. simpl. rewrite <- app_assoc. reflexivity.
  - rewrite add_groups_domains. simpl. apply lookup_insert_eq.
  - intros g Hg. apply add_groups_lookup, Hg.
  - intros Hnd g Hg. apply add_groups_lookup_nodup; assumption.
Qed.

(** C10.  An authorized [issuetoken] with no names, for an existing domain
    and a non-empty owner, succeeds: it calls [issue_tokens] once, with the
    action and its empty batch, and the tokens of the store are the same as
    before. *)
Theorem issuetoken_empty_batch itact db :
  it_names itact = [] ->
  has_authorized context (it_domain itact) (key_of_name "issue") = true ->
  is_Some (db_domains db !! it_domain itact) ->
  it_owner itact <> [] ->
  exists db',
    apply_evt_issuetoken context itact db = (Ok tt, db')
    /\ db_journal db' = db_journal db ++ [w_issue_tokens itact]
    /\ db_tokens db' = db_tokens db
    /\ db_domains db' = db_domains db
    /\ db_groups db' = db_groups db
    /\ db_accounts db' = db_accounts db.
Proof.
  intros Hnames Hauth Hdom Hown.
  exists (tokendb.issue_tokens itact db). split.
  - unfold apply_evt_issuetoken. rewrite Hauth, bind_assert_true, bind_query.
    unfold tokendb.exists_domain.
    rewrite (bool_decide_eq_true_2 _ Hdom), bind_assert_true.
    rewrite (bool_decide_eq_false_2 _ Hown).
    simpl negb. rewrite bind_assert_true, Hnames. reflexivity.
  - unfold tokendb.issue_tokens. simpl. rewrite Hnames. simpl. tauto.
Qed.

End Domains.

(** ** Authorization scopes *)

Section NeverThrows.

Variable e : exception.

Lemma never_throws_ret {A} (a : A) : never_throws e (mret a).
Proof. intros db. discriminate. Qed.

Lemma never_throws_query {A} (g : token_database -> A) : never_throws e (query g).
Proof. intros db. discriminate. Qed.

Lemma never_throws_perform g : never_throws e (perform g).
Proof. intros db. discriminate. Qed.

Lemma never_throws_assert cond what :
  action_validate_exception what <> e -> never_throws e (EVT_ASSERT cond what).
Proof. intros Hne db. destruct cond; simpl; [discriminate | congruence]. Qed.

Lemma never_throws_bind {A B} (m : M A) (f : A -> M B) :
  never_throws e m -> (forall a, never_throws e (f a)) -> never_throws e (m ≫= f).
Proof.
  intros Hm Hf db. unfold mbind, M_bind. specialize (Hm db).
  destruct (m db) as [[a|e1] db1]; [apply Hf|].
  simpl in *. intros [= ->]. apply Hm. reflexivity.
Qed.

Lemma never_throws_for_each {A} (l : list A) (body : A -> M unit) :
  (forall x, never_throws e (body x)) -> never_throws e (for_each l body).
Proof.
  intros Hb. induction l as [|x l IH]; simpl.
  - apply never_throws_ret.
  - apply never_throws_bind; [apply Hb | intros _; exact IH].
Qed.

End NeverThrows.

Create HintDb messages.

#[local] Hint Resolve never_throws_ret never_throws_query never_throws_perform
  never_throws_assert never_throws_bind never_throws_for_each : messages.
#[local] Hint Extern 1 (action_validate_exception _ <> action_validate_exception _) =>
  (intros [=]; discriminate) : messages.

Section Authorization.

Variable from_group_key : public_key_type -> group_id.
Variable context : apply_context.

Lemma check_group_message groups allowed g :
  never_throws (action_validate_exception auth_msg) (checker.check_group groups allowed g).
Proof.
  unfold checker.check_group, auth_msg. destruct (group_id_empty (gw_id g)); auto with messages.
Qed.

Lemma permission_checker_message groups p allowed :
  never_throws (action_validate_exception auth_msg) (make_permission_checker groups p allowed).
Proof. apply never_throws_for_each. intros; apply check_group_message. Qed.

Lemma check_inline_group_message g :
  never_throws (action_validate_exception auth_msg) (check_inline_group from_group_key g).
Proof. unfold check_inline_group, auth_msg. auto with messages. Qed.

(** A handler that starts with the authorization check and never throws
    that message afterwards stops at the check exactly when the oracle
    says no. *)
Lemma stopped_iff_unauthorized {A} (authorized : bool) (rest : M A) db :
  never_throws (action_validate_exception auth_msg) rest ->
  ~ stopped_at_authorization (EVT_ASSERT authorized auth_msg ;; rest) db
  <-> authorized = true.
Proof.
  intros Hrest. unfold stopped_at_authorization. destruct authorized.
  - rewrite bind_assert_true. split; [reflexivity | intros _; apply Hrest].
  - rewrite bind_assert_false. simpl. split; [intros H; exfalso; apply H; reflexivity | discriminate].
Qed.

Lemma updatedomain_rest_message udact (rest : M unit) :
  never_throws (action_validate_exception auth_msg) rest ->
  never_throws (action_validate_exception auth_msg)
    (existed ← query (tokendb.exists_domain (ud_name udact));
     EVT_ASSERT existed "Domain ${name} is not existed" ;;
     for_each (ud_groups udact) (check_inline_group from_group_key) ;;
     EVT_ASSERT (negb (name_empty (ud_name udact))) "Domain name shouldn't be empty" ;;
     rest).
Proof.
  intros Hrest. unfold auth_msg in *.
  apply never_throws_bind; [auto with messages | intros existed].
  apply never_throws_bind; [auto with messages | intros _].
  apply never_throws_bind;
    [apply never_throws_for_each; intros; apply check_inline_group_message | intros _].
  apply never_throws_bind; [auto with messages | intros _]. exact Hrest.
Qed.

(** C4.  [updatedomain] gets past its authorization check exactly when the
    oracle says yes for the domain's own name with the key "manage";
    [newdomain] gets past its check exactly when the oracle says yes for
    the name "domain" with the domain's name as key.  The two handlers ask
    for different scopes. *)
Theorem updatedomain_authorization_scope udact ndact db :
  (~ stopped_at_authorization (apply_evt_updatedomain from_group_key context udact) db
   <-> has_authorized context (ud_name udact) (key_of_name "manage") = true)
  /\ (~ stopped_at_authorization (apply_evt_newdomain from_group_key context ndact) db
      <-> has_authorized context "domain" (key_of_name (nd_name ndact)) = true).
Proof.
  split.
  - unfold apply_evt_updatedomain. apply stopped_iff_unauthorized.
    apply updatedomain_rest_message. cbv zeta.
    pose proof permission_checker_message as Hc. unfold auth_msg in *.
    repeat (apply never_throws_bind;
            [ try (destruct (ud_issue udact)); try (destruct (ud_transfer udact));
              try (destruct (ud_manage udact)); auto 6 with messages
            | intros _ ]).
    auto with messages.
  - unfold apply_evt_newdomain. apply stopped_iff_unauthorized. cbv zeta.
    pose proof permission_checker_message as Hc.
    pose proof check_inline_group_message as Hi. unfold auth_msg in *.
    repeat (apply never_throws_bind; [auto 6 with messages | intros ?]).
    auto with messages.
Qed.

End Authorization.

(** * Further properties of the handlers *)

(** ** Authorization comes first *)

Section AuthorizationFirst.

Variable system_account_name : name128.
Variable from_group_key : public_key_type -> group_id.
Variable context : apply_context.
Context {sm : SafeMath}.

Lemma stopped_iff_refused {A} (authorized : bool) (rest : M A) db :
  never_throws (action_validate_exception auth_msg) rest ->
  stopped_at_authorization (EVT_ASSERT authorized auth_msg ;; rest) db
  <-> authorized = false.
Proof.
  intros Hrest. pose proof (stopped_iff_unauthorized authorized rest db Hrest) as H.
  destruct authorized.
  - split; [|discriminate]. intros Hs. exfalso. apply H; [reflexivity | exact Hs].
  - split; [reflexivity|]. intros _. unfold stopped_at_authorization.
    rewrite bind_assert_false. reflexivity.
Qed.

Ltac other_messages :=
  pose proof permission_checker_message as Hchecker;
  pose proof (check_inline_group_message from_group_key) as Hinline;
  unfold auth_msg in *; cbv zeta;
  repeat first
    [ apply never_throws_bind; [|intros ?]
    | match goal with
      | |- context [match ?o with Some _ => _ | None => _ end] => destruct o
      | |- context [match ?x with pair _ _ => _ end] => destruct x
      end ];
  auto 6 with messages.

(** X1.  Every handler begins with the authorization of its own scope: it
    stops with "Authorized information doesn't match" exactly when the
    oracle refuses that scope, whatever else is wrong with the action, and
    the database is then untouched. *)
Theorem authorization_comes_first act db :
  (stopped_at_authorization
     (apply_action system_account_name from_group_key context act) db
   <-> has_authorized context (authorization_scope act).1 (authorization_scope act).2 = false)
  /\ (has_authorized context (authorization_scope act).1 (authorization_scope act).2 = false ->
      apply_action system_account_name from_group_key context act db
      = (Err (action_validate_exception auth_msg), db)).
Proof.
  split.
  - destruct act; simpl;
      [ unfold apply_evt_newdomain | unfold apply_evt_issuetoken | unfold apply_evt_transfer
      | unfold apply_evt_updategroup | unfold apply_evt_updatedomain
      | unfold apply_evt_newaccount | unfold apply_evt_updateowner
      | unfold apply_evt_transferevt ];
      apply stopped_iff_refused; other_messages.
  - intros Hno.
    destruct act; simpl in *;
      [ unfold apply_evt_newdomain | unfold apply_evt_issuetoken | unfold apply_evt_transfer
      | unfold apply_evt_updategroup | unfold apply_evt_updatedomain
      | unfold apply_evt_newaccount | unfold apply_evt_updateowner
      | unfold apply_evt_transferevt ];
      rewrite Hno; apply bind_assert_false.
Qed.

End AuthorizationFirst.

(** ** When each handler succeeds *)

Section Success.

Variable system_account_name : name128.
Variable from_group_key : public_key_type -> group_id.
Variable context : apply_context.

Lemma perform_ok g db db' : perform g db = (Ok tt, db') <-> db' = g db.
Proof. unfold perform. split; [intros [= <-]; reflexivity | intros ->; reflexivity]. Qed.

Lemma bool_decide_is_Some {A} (o : option A) : bool_decide (is_Some o) = true <-> is_Some o.
Proof. apply bool_decide_eq_true. Qed.

Lemma negb_bool_decide_is_Some {A} (o : option A) :
  negb (bool_decide (is_Some o)) = true <-> o = None.
Proof.
  rewrite negb_true_iff, bool_decide_eq_false, <- eq_None_not_Some. tauto.
Qed.

Lemma owner_not_empty (l : list Z) : negb (bool_decide (l = [])) = true <-> l <> [].
Proof. rewrite negb_true_iff, bool_decide_eq_false. tauto. Qed.

Lemma size_positive {A} (l : list A) : (0 <? Z.of_nat (length l)) = true <-> l <> [].
Proof.
  rewrite Z.ltb_lt. destruct l; simpl; split; try congruence; try lia.
Qed.

Lemma token_free_ok domain n db :
  (existed ← query (tokendb.exists_token domain n);
   EVT_ASSERT (negb existed) "Token ${domain}-${name} already existed") db = (Ok tt, db)
  <-> db_tokens db !! (domain, n) = None.
Proof.
  rewrite bind_query, assert_ok. unfold tokendb.exists_token.
  rewrite negb_bool_decide_is_Some. tauto.
Qed.

(** X2.  [issuetoken] succeeds exactly when the oracle authorizes
    (domain, "issue"), the domain exists, the owner list is not empty and
    none of the names is a token of the domain yet; its only write is then
    one [issue_tokens] call with the whole action.  A single name that is
    taken makes the whole action fail. *)
Theorem issuetoken_succeeds_iff itact db db' :
  succeeds (apply_evt_issuetoken context itact) db db'
  <-> has_authorized context (it_domain itact) (key_of_name "issue") = true
      /\ is_Some (db_domains db !! it_domain itact)
      /\ it_owner itact <> []
      /\ Forall (fun n => db_tokens db !! (it_domain itact, n) = None) (it_names itact)
      /\ db' = tokendb.issue_tokens itact db.
Proof.
  rewrite succeeds_unit. unfold apply_evt_issuetoken.
  rewrite bind_assert_ok, bind_query, !bind_assert_ok.
  rewrite for_each_check_bind
    by (intros n; apply readonly_bind; [apply readonly_query | intros; apply readonly_assert]).
  rewrite perform_ok. unfold tokendb.exists_domain.
  rewrite bool_decide_is_Some, owner_not_empty.
  assert (Hall : Forall (fun n =>
                    (existed ← query (tokendb.exists_token (it_domain itact) n);
                     EVT_ASSERT (negb existed) "Token ${domain}-${name} already existed") db
                    = (Ok tt, db)) (it_names itact)
                 <-> Forall (fun n => db_tokens db !! (it_domain itact, n) = None)
                       (it_names itact)).
  { apply Forall_iff. intros n. apply token_free_ok. }
  rewrite Hall. tauto.
Qed.

(** X3.  [transfer] succeeds exactly when the oracle authorizes
    (domain, token name) and the token exists; its only write is one
    [transfer_token] call. *)
Theorem transfer_succeeds_iff ttact db db' :
  succeeds (apply_evt_transfer context ttact) db db'
  <-> has_authorized context (tt_domain ttact) (key_of_name (tt_name ttact)) = true
      /\ is_Some (db_tokens db !! (tt_domain ttact, tt_name ttact))
      /\ db' = tokendb.transfer_token ttact db.
Proof.
  rewrite succeeds_unit. unfold apply_evt_transfer.
  rewrite bind_assert_ok, bind_query, bind_assert_ok, perform_ok.
  unfold tokendb.exists_token. rewrite bool_decide_is_Some. tauto.
Qed.

(** X4.  [updategroup] succeeds exactly when the oracle authorizes
    ("group", id), the group is in the store, the new key list is not empty
    and the new definition is valid; its only write is one [update_group]
    call.  It cannot create a group. *)
Theorem updategroup_succeeds_iff ugact db db' :
  succeeds (apply_evt_updategroup context ugact) db db'
  <-> has_authorized context "group" (key_of_group (ug_id ugact)) = true
      /\ in_store db (ug_id ugact)
      /\ ug_keys ugact <> []
      /\ internal.validate_group ugact = true
      /\ db' = tokendb.update_group ugact db.
Proof.
  rewrite succeeds_unit. unfold apply_evt_updategroup.
  rewrite bind_assert_ok, bind_query, !bind_assert_ok, perform_ok.
  rewrite exists_group_true, size_positive. tauto.
Qed.

Lemma supplied_block_positive {B} slot msg1 msg2 allowed groups (o : option permission_def)
    (f : unit -> M B) db b db' :
  (match o with
   | Some p =>
       EVT_ASSERT (String.eqb (pd_name p) slot) msg1 ;;
       EVT_ASSERT ((0 <? pd_threshold p) && internal.validate_permission p) msg2 ;;
       make_permission_checker groups p allowed
   | None => mret tt
   end ≫= f) db = (Ok b, db')
  <-> supplied_permission_ok slot true allowed groups db o /\ f tt db = (Ok b, db').
Proof.
  destruct o as [p|]; simpl.
  - rewrite bind_assoc, bind_assert_ok, bind_assoc, bind_assert_ok, permission_checker_bind.
    rewrite String.eqb_eq, andb_true_iff, Z.ltb_lt. tauto.
  - split; [intros E; split; [exact I | exact E] | intros [_ E]; exact E].
Qed.

Lemma supplied_block_any {B} slot msg1 msg2 allowed groups (o : option permission_def)
    (f : unit -> M B) db b db' :
  (match o with
   | Some p =>
       EVT_ASSERT (String.eqb (pd_name p) slot) msg1 ;;
       EVT_ASSERT (internal.validate_permission p) msg2 ;;
       make_permission_checker groups p allowed
   | None => mret tt
   end ≫= f) db = (Ok b, db')
  <-> supplied_permission_ok slot false allowed groups db o /\ f tt db = (Ok b, db').
Proof.
  destruct o as [p|]; simpl.
  - rewrite bind_assoc, bind_assert_ok, bind_assoc, bind_assert_ok, permission_checker_bind.
    rewrite String.eqb_eq. split; [|tauto].
    intros (? & ? & ? & ?). repeat split; try assumption. discriminate.
  - split; [intros E; split; [exact I | exact E] | intros [_ E]; exact E].
Qed.

(** X5.  [updatedomain] succeeds exactly when the oracle authorizes
    (name, "manage"), the domain exists, every inline group is valid and
    carries the id derived from its key, the name is not empty, and each
    permission that the action supplies has the name of its slot, is valid
    (with a positive threshold for [issue] and [transfer]) and passes the
    resolver (owner group allowed for [transfer] only); permissions that are
    absent are not checked.  Its only write is one [update_domain] call: the
    handler itself never calls [add_group] for the inline groups. *)
Theorem updatedomain_succeeds_iff udact db db' :
  succeeds (apply_evt_updatedomain from_group_key context udact) db db'
  <-> has_authorized context (ud_name udact) (key_of_name "manage") = true
      /\ is_Some (db_domains db !! ud_name udact)
      /\ Forall (fun g => internal.validate_group g = true
                          /\ gd_id g = from_group_key (gd_key g)) (ud_groups udact)
      /\ ud_name udact <> ""
      /\ supplied_permission_ok "issue" true false (ud_groups udact) db (ud_issue udact)
      /\ supplied_permission_ok "transfer" true true (ud_groups udact) db (ud_transfer udact)
      /\ supplied_permission_ok "manage" false false (ud_groups udact) db (ud_manage udact)
      /\ db' = tokendb.update_domain udact db
      /\ db_journal db' = db_journal db ++ [w_update_domain udact].
Proof.
  rewrite succeeds_unit. unfold apply_evt_updatedomain. cbv zeta.
  rewrite bind_assert_ok, bind_query, bind_assert_ok.
  rewrite for_each_check_bind by apply readonly_check_inline_group.
  rewrite bind_assert_ok, !supplied_block_positive, supplied_block_any, perform_ok.
  unfold tokendb.exists_domain. rewrite bool_decide_is_Some, name_not_empty.
  assert (Hall : Forall (fun g => check_inline_group from_group_key g db = (Ok tt, db))
                   (ud_groups udact)
                 <-> Forall (fun g => internal.validate_group g = true
                                      /\ gd_id g = from_group_key (gd_key g)) (ud_groups udact)).
  { apply Forall_iff. intros g. apply check_inline_group_ok. }
  rewrite Hall. split.
  - intros (? & ? & ? & ? & ? & ? & ? & ->). repeat split; assumption.
  - tauto.
Qed.

(** X6.  [newaccount] succeeds exactly when the oracle authorizes
    ("account", name), the name is not empty and no account has it; its only
    write is one [add_account] call. *)
Theorem newaccount_succeeds_iff naact db db' :
  succeeds (apply_evt_newaccount system_account_name context naact) db db'
  <-> has_authorized context "account" (key_of_name (na_name naact)) = true
      /\ na_name naact <> ""
      /\ db_accounts db !! na_name naact = None
      /\ db' = tokendb.add_account
                 (mk_account_def (na_name naact) system_account_name (mk_asset 10000)
                    (mk_asset 0) (na_owner naact)) db.
Proof.
  rewrite succeeds_unit. unfold apply_evt_newaccount. cbv zeta.
  rewrite !bind_assert_ok, bind_query, bind_assert_ok, perform_ok.
  unfold tokendb.exists_account. rewrite name_not_empty, negb_bool_decide_is_Some. tauto.
Qed.

(** X7.  [updateowner] succeeds exactly when the oracle authorizes
    ("account", name), the account exists and the new owner list is not
    empty.  It then replaces the owner of that account and nothing else:
    name, creator, balance and frozen balance stay, and so does every other
    account. *)
Theorem updateowner_succeeds_iff uoact db db' :
  (succeeds (apply_evt_updateowner context uoact) db db'
   <-> has_authorized context "account" (key_of_name (uo_name uoact)) = true
       /\ is_Some (db_accounts db !! uo_name uoact)
       /\ uo_owner uoact <> []
       /\ db' = tokendb.update_account
                  (mk_updateaccount (uo_name uoact) (Some (uo_owner uoact)) None None) db)
  /\ (succeeds (apply_evt_updateowner context uoact) db db' ->
      (exists a, db_accounts db !! uo_name uoact = Some a
                 /\ db_accounts db' !! uo_name uoact
                    = Some (mk_account_def (ad_name a) (ad_creator a) (ad_balance a)
                              (ad_frozen_balance a) (uo_owner uoact)))
      /\ forall n, n <> uo_name uoact -> db_accounts db' !! n = db_accounts db !! n).
Proof.
  assert (Hiff : succeeds (apply_evt_updateowner context uoact) db db'
    <-> has_authorized context "account" (key_of_name (uo_name uoact)) = true
        /\ is_Some (db_accounts db !! uo_name uoact)
        /\ uo_owner uoact <> []
        /\ db' = tokendb.update_account
                   (mk_updateaccount (uo_name uoact) (Some (uo_owner uoact)) None None) db).
  { rewrite succeeds_unit. unfold apply_evt_updateowner. cbv zeta.
    rewrite bind_assert_ok, bind_query, !bind_assert_ok, perform_ok.
    unfold tokendb.exists_account. rewrite bool_decide_is_Some, size_positive. tauto. }
  split; [exact Hiff|].
  intros Hs. apply Hiff in Hs as (_ & [a Ha] & _ & ->). split.
  - exists a. split; [exact Ha|]. unfold tokendb.update_account. simpl.
    rewrite lookup_alter_eq, Ha. reflexivity.
  - intros n Hn. unfold tokendb.update_account. simpl.
    apply lookup_alter_ne. congruence.
Qed.

End Success.

(** ** Rejections *)

Section Rejections.

Variable system_account_name : name128.
Variable from_group_key : public_key_type -> group_id.
Variable context : apply_context.

(** A loop of read-only checks that all throw the same exception fails
    with it as soon as one element fails. *)
Lemma for_each_check_fails {A B} (l : list A) (body : A -> M unit) (f : unit -> M B) e x db :
  (forall y, body y db = (Ok tt, db) \/ body y db = (Err e, db)) ->
  x ∈ l -> body x db = (Err e, db) ->
  (for_each l body ≫= f) db = (Err e, db).
Proof.
  intros Hbody Hin Hx. induction l as [|y l IH]; [inversion Hin|].
  simpl. rewrite bind_assoc. unfold mbind at 1, M_bind at 1.
  destruct (Hbody y) as [Hy|Hy]; rewrite Hy; [|reflexivity].
  apply elem_of_cons in Hin as [->|Hin]; [congruence|].
  apply IH, Hin.
Qed.

Lemma add_groups_keep_domain l db n :
  is_Some (db_domains db !! n) ->
  is_Some (db_domains (foldl (fun db g => tokendb.add_group g db) db l) !! n).
Proof. rewrite add_groups_domains. tauto. Qed.

(** X8.  An authorized [newdomain] for a name that is already a domain is
    rejected with "Domain ${name} already existed" and writes nothing,
    whatever the rest of the action holds: that check comes before the
    validation of the groups, the name and the permissions. *)
Theorem newdomain_existing_name_rejected ndact db :
  has_authorized context "domain" (key_of_name (nd_name ndact)) = true ->
  is_Some (db_domains db !! nd_name ndact) ->
  apply_evt_newdomain from_group_key context ndact db
  = (Err (action_validate_exception "Domain ${name} already existed"), db).
Proof.
  intros Hauth Hdom. unfold apply_evt_newdomain.
  rewrite Hauth, bind_assert_true, bind_query. unfold tokendb.exists_domain.
  rewrite (bool_decide_eq_true_2 _ Hdom). apply bind_assert_false.
Qed.

(** X9.  After a successful [newdomain], every authorized [newdomain] with
    the same name is rejected with "Domain ${name} already existed",
    whatever its payload and whoever authorizes it. *)
Theorem newdomain_twice_rejected context' ndact ndact' db db' :
  succeeds (apply_evt_newdomain from_group_key context ndact) db db' ->
  nd_name ndact' = nd_name ndact ->
  has_authorized context' "domain" (key_of_name (nd_name ndact')) = true ->
  apply_evt_newdomain from_group_key context' ndact' db'
  = (Err (action_validate_exception "Domain ${name} already existed"), db').
Proof.
  intros Hs Hname Hauth. apply newdomain_succeeds in Hs as (_ & _ & _ & _ & ->).
  unfold apply_evt_newdomain.
  rewrite Hauth, bind_assert_true, bind_query. unfold tokendb.exists_domain.
  rewrite bool_decide_eq_true_2; [apply bind_assert_false|].
  unfold newdomain_result. apply add_groups_keep_domain. simpl.
  rewrite Hname. unfold domain_of. simpl. rewrite lookup_insert_eq. eauto.
Qed.

(** X10.  After a successful [newaccount], every authorized [newaccount]
    with the same name is rejected with "Account ${name} already existed";
    the balance of an account cannot be reset by creating it again. *)
Theorem newaccount_twice_rejected context' naact naact' db db' :
  succeeds (apply_evt_newaccount system_account_name context naact) db db' ->
  na_name naact' = na_name naact ->
  has_authorized context' "account" (key_of_name (na_name naact')) = true ->
  apply_evt_newaccount system_account_name context' naact' db'
  = (Err (action_validate_exception "Account ${name} already existed"), db').
Proof.
  unfold succeeds, apply_evt_newaccount. intros (u & E) Hname Hauth.
  apply bind_assert_ok in E as [_ E].
  apply bind_assert_ok in E as [Hne E]. rewrite bind_query in E.
  apply bind_assert_ok in E as [_ E].
  unfold perform in E. injection E as _ <-.
  rewrite Hauth, bind_assert_true, Hname, Hne, bind_assert_true, bind_query.
  unfold tokendb.exists_account, tokendb.add_account. simpl.
  rewrite bool_decide_eq_true_2; [apply bind_assert_false|].
  rewrite lookup_insert_eq. eauto.
Qed.

Lemma issue_tokens_lookup names : forall (m : gmap (string * string) token_def) domain owner n,
  n ∈ names ->
  is_Some (foldl (fun m n => <[(domain, n) := mk_token_def domain n owner]> m) m names
           !! (domain, n)).
Proof.
  induction names as [|x names IH]; intros m domain owner n Hin; [inversion Hin|].
  simpl. destruct (decide (n ∈ names)) as [Hlater|Hlast].
  - apply IH, Hlater.
  - apply elem_of_cons in Hin as [->|Hin]; [|contradiction].
    assert (Hkeep : forall l (m : gmap (string * string) token_def) k,
              is_Some (m !! k) ->
              is_Some (foldl (fun m n => <[(domain, n) := mk_token_def domain n owner]> m) m l
                       !! k)).
    { clear. induction l as [|y l IHl]; intros m k Hk; simpl; [exact Hk|].
      apply IHl. destruct (decide ((domain, y) = k)) as [<-|Hne].
      - rewrite lookup_insert_eq. eauto.
      - rewrite lookup_insert_ne by exact Hne. exact Hk. }
    apply Hkeep. rewrite lookup_insert_eq. eauto.
Qed.

(** X11.  After a successful [issuetoken], an authorized [issuetoken] for
    the same domain that repeats one of its names is rejected with
    "Token ${domain}-${name} already existed" and writes nothing, so none of
    its other names is issued either. *)
Theorem issuetoken_repeated_name_rejected context' itact itact' n db db' :
  succeeds (apply_evt_issuetoken context itact) db db' ->
  it_domain itact' = it_domain itact ->
  n ∈ it_names itact -> n ∈ it_names itact' ->
  has_authorized context' (it_domain itact') (key_of_name "issue") = true ->
  it_owner itact' <> [] ->
  apply_evt_issuetoken context' itact' db'
  = (Err (action_validate_exception "Token ${domain}-${name} already existed"), db').
Proof.
  intros Hs Hdomain Hn Hn' Hauth Hown.
  apply succeeds_unit in Hs. unfold apply_evt_issuetoken in Hs.
  apply bind_assert_ok in Hs as [_ Hs]. rewrite bind_query in Hs.
  apply bind_assert_ok in Hs as [Hdom Hs].
  apply bind_assert_ok in Hs as [_ Hs].
  apply for_each_check_bind in Hs as [_ Hs];
    [|intros ?; apply readonly_bind; [apply readonly_query | intros; apply readonly_assert]].
  apply perform_ok in Hs. subst db'.
  unfold apply_evt_issuetoken.
  rewrite Hauth, bind_assert_true, bind_query, Hdomain.
  replace (tokendb.exists_domain (it_domain itact) (tokendb.issue_tokens itact db)) with true
    by (symmetry; exact Hdom).
  rewrite bind_assert_true, (bool_decide_eq_false_2 _ Hown). simpl negb.
  rewrite bind_assert_true.
  apply (for_each_check_fails _ _ _ _ n); [| exact Hn' |].
  - intros y. rewrite bind_query.
    destruct (tokendb.exists_token (it_domain itact) y (tokendb.issue_tokens itact db));
      [right | left]; reflexivity.
  - rewrite bind_query. unfold tokendb.exists_token, tokendb.issue_tokens. simpl.
    rewrite bool_decide_eq_true_2; [reflexivity|].
    apply issue_tokens_lookup, Hn.
Qed.

End Rejections.

Section TransferRejections.

Variable context : apply_context.
Context {sm : SafeMath}.

(** X12.  An authorized [transferevt] between two existing accounts with an
    amount of zero or less is rejected with "Transfer amount must be
    positive" before any balance is read. *)
Theorem transferevt_nonpositive_amount_rejected teact db :
  has_authorized context "account" (key_of_name (te_from teact)) = true ->
  is_Some (db_accounts db !! te_from teact) ->
  is_Some (db_accounts db !! te_to teact) ->
  amount (te_amount teact) <= 0 ->
  apply_evt_transferevt context teact db
  = (Err (action_validate_exception "Transfer amount must be positive"), db).
Proof.
  intros Hauth Hf Ht Hamt. unfold apply_evt_transferevt.
  rewrite Hauth, bind_assert_true, bind_query. unfold tokendb.exists_account.
  rewrite (bool_decide_eq_true_2 _ Hf), bind_assert_true, bind_query.
  rewrite (bool_decide_eq_true_2 _ Ht), bind_assert_true.
  replace (0 <? amount (te_amount teact)) with false by (symmetry; apply Z.ltb_ge; lia).
  apply bind_assert_false.
Qed.

(** X13.  A [transferevt] whose source or destination account is missing is
    rejected with "Account ${name} don't exist", the source being looked up
    first; nothing is written and no account is created. *)
Theorem transferevt_missing_account_rejected teact db :
  has_authorized context "account" (key_of_name (te_from teact)) = true ->
  db_accounts db !! te_from teact = None \/ db_accounts db !! te_to teact = None ->
  apply_evt_transferevt context teact db
  = (Err (action_validate_exception "Account ${name} don't exist"), db).
Proof.
  intros Hauth Hmiss. unfold apply_evt_transferevt.
  rewrite Hauth, bind_assert_true, bind_query. unfold tokendb.exists_account.
  destruct (db_accounts db !! te_from teact) as [fa|] eqn:Hf.
  - rewrite bool_decide_eq_true_2 by eauto. rewrite bind_assert_true, bind_query.
    destruct Hmiss as [Hm|Hm]; [discriminate|]. rewrite Hm.
    rewrite bool_decide_eq_false_2 by (intros [? ?]; discriminate).
    apply bind_assert_false.
  - rewrite bool_decide_eq_false_2 by (intros [? ?]; discriminate).
    apply bind_assert_false.
Qed.

End TransferRejections.

(** ** What every handler preserves *)

Section Steps.

Variable R : token_database -> token_database -> Prop.
Hypothesis R_refl : forall db, R db db.
Hypothesis R_trans : forall db1 db2 db3, R db1 db2 -> R db2 db3 -> R db1 db3.

Lemma steps_readonly {A} (m : M A) db : readonly m -> steps_at R m db.
Proof.
  intros Hro r db' E. specialize (Hro db). rewrite E in Hro. simpl in Hro. subst db'.
  apply R_refl.
Qed.

Lemma steps_bind_check {A B} (m : M A) (f : A -> M B) db :
  readonly m -> (forall a, m db = (Ok a, db) -> steps_at R (f a) db) ->
  steps_at R (m ≫= f) db.
Proof.
  intros Hro Hf r db' E. unfold mbind, M_bind in E.
  pose proof (Hro db) as Hdb. destruct (m db) as [[a|e] db1] eqn:Em; simpl in Hdb; subst db1.
  - eapply Hf; [reflexivity | exact E].
  - injection E as _ <-. apply R_refl.
Qed.

Lemma steps_bind_query {A B} (g : token_database -> A) (f : A -> M B) db :
  steps_at R (f (g db)) db -> steps_at R (query g ≫= f) db.
Proof. intros Hf r db' E. rewrite bind_query in E. eapply Hf, E. Qed.

Lemma steps_bind_assert {B} cond what (f : unit -> M B) db :
  (cond = true -> steps_at R (f tt) db) -> steps_at R (EVT_ASSERT cond what ≫= f) db.
Proof.
  intros Hf r db' E. destruct cond.
  - rewrite bind_assert_true in E. eapply Hf; [reflexivity | exact E].
  - rewrite bind_assert_false in E. injection E as _ <-. apply R_refl.
Qed.

Lemma steps_perform g db : R db (g db) -> steps_at R (perform g) db.
Proof. intros Hg r db' [= _ <-]. exact Hg. Qed.

Lemma steps_bind_perform {B} g (f : unit -> M B) db :
  R db (g db) -> steps_at R (f tt) (g db) -> steps_at R (perform g ≫= f) db.
Proof.
  intros Hg Hf r db' E. rewrite bind_perform in E.
  eapply R_trans; [exact Hg | eapply Hf, E].
Qed.

Lemma steps_for_each_perform {A} (l : list A) (g : A -> token_database -> token_database) db :
  (forall x db1, R db1 (g x db1)) ->
  steps_at R (for_each l (fun x => perform (g x))) db.
Proof.
  intros Hg. revert db. induction l as [|x l IH]; intros db; simpl.
  - intros r db' [= _ <-]. apply R_refl.
  - apply steps_bind_perform; [apply Hg | apply IH].
Qed.

End Steps.

(** Run the checks of a handler symbolically, keeping what they
    establish, up to its first write. *)
Ltac through_checks Hrefl :=
  cbv zeta;
  repeat first
    [ apply (steps_bind_assert _ Hrefl); intros ?
    | apply steps_bind_query
    | apply (steps_bind_check _ Hrefl); [solve [auto 6 with readonly] | intros ? _]
    | match goal with
      | |- context [match ?o with Some _ => _ | None => _ end] => destruct o
      | |- context [match ?x with pair _ _ => _ end] => destruct x
      end ].

Section NeverDeletes.

Variable system_account_name : name128.
Variable from_group_key : public_key_type -> group_id.
Variable context : apply_context.
Context {sm : SafeMath}.

Lemma keeps_records_refl db : keeps_records db db.
Proof. unfold keeps_records. tauto. Qed.

Lemma keeps_records_trans db1 db2 db3 :
  keeps_records db1 db2 -> keeps_records db2 db3 -> keeps_records db1 db3.
Proof. unfold keeps_records. intros (?&?&?&?) (?&?&?&?). repeat split; auto. Qed.

Lemma is_Some_insert `{Countable K} {V} (m : gmap K V) k v j :
  is_Some (m !! j) -> is_Some (<[k:=v]> m !! j).
Proof.
  intros Hj. destruct (decide (k = j)) as [->|Hne].
  - rewrite lookup_insert_eq. eauto.
  - rewrite lookup_insert_ne by exact Hne. exact Hj.
Qed.

Lemma is_Some_alter `{Countable K} {V} (f : V -> V) (m : gmap K V) k j :
  is_Some (m !! j) -> is_Some (alter f k m !! j).
Proof.
  intros [v Hj]. destruct (decide (k = j)) as [->|Hne].
  - rewrite lookup_alter_eq, Hj. simpl. eauto.
  - rewrite lookup_alter_ne by exact Hne. eauto.
Qed.

Lemma is_Some_issue names : forall (m : gmap (string * string) token_def) domain owner k,
  is_Some (m !! k) ->
  is_Some (foldl (fun m n => <[(domain, n) := mk_token_def domain n owner]> m) m names !! k).
Proof.
  induction names as [|y l IH]; intros m domain owner k Hk; simpl; [exact Hk|].
  apply IH, is_Some_insert, Hk.
Qed.

Lemma writes_keep_records db :
  (forall d, keeps_records db (tokendb.add_domain d db))
  /\ (forall g, keeps_records db (tokendb.add_group g db))
  /\ (forall it, keeps_records db (tokendb.issue_tokens it db))
  /\ (forall tt, keeps_records db (tokendb.transfer_token tt db))
  /\ (forall ug, keeps_records db (tokendb.update_group ug db))
  /\ (forall ud, keeps_records db (tokendb.update_domain ud db))
  /\ (forall a, keeps_records db (tokendb.add_account a db))
  /\ (forall ua, keeps_records db (tokendb.update_account ua db)).
Proof.
  unfold keeps_records. repeat split; simpl; intros;
    auto using @is_Some_insert, @is_Some_alter, is_Some_issue.
Qed.

(** X14.  No handler ever removes a record: whatever the action and
    whatever its outcome, every domain, group, token and account that was
    in the store before is in the store afterwards. *)
Theorem handlers_never_delete act db r db' :
  apply_action system_account_name from_group_key context act db = (r, db') ->
  keeps_records db db'.
Proof.
  revert r db'. change (steps_at keeps_records
    (apply_action system_account_name from_group_key context act) db).
  pose proof keeps_records_refl as Hrefl. pose proof keeps_records_trans as Htrans.
  destruct act; simpl;
    [ unfold apply_evt_newdomain | unfold apply_evt_issuetoken | unfold apply_evt_transfer
    | unfold apply_evt_updategroup | unfold apply_evt_updatedomain
    | unfold apply_evt_newaccount | unfold apply_evt_updateowner
    | unfold apply_evt_transferevt ];
    through_checks Hrefl.
  all: try (apply steps_perform; apply writes_keep_records).
  - apply (steps_bind_perform _ Htrans); [apply writes_keep_records|].
    apply (steps_for_each_perform _ Hrefl Htrans). intros; apply writes_keep_records.
  - apply (steps_bind_perform _ Htrans); [apply writes_keep_records|].
    apply steps_perform, writes_keep_records.
Qed.

End NeverDeletes.

Section Invariants.

Variable system_account_name : name128.
Variable from_group_key : public_key_type -> group_id.
Variable context : apply_context.
Context {sm : SafeMath}.

Lemma map_Forall_alter_keep `{Countable K} {V} (P : K -> V -> Prop) (f : V -> V)
    (m : gmap K V) k :
  (forall v, P k v -> P k (f v)) -> map_Forall P m -> map_Forall P (alter f k m).
Proof.
  intros Hf Hm j v Hj. destruct (decide (k = j)) as [->|Hne].
  - rewrite lookup_alter_eq in Hj. destruct (m !! j) as [w|] eqn:E; [|discriminate].
    injection Hj as <-. apply Hf, (Hm _ _ E).
  - rewrite lookup_alter_ne in Hj by exact Hne. apply (Hm _ _ Hj).
Qed.

Lemma map_Forall_insert_keep `{Countable K} {V} (P : K -> V -> Prop) (m : gmap K V) k v :
  P k v -> map_Forall P m -> map_Forall P (<[k:=v]> m).
Proof.
  intros Hv Hm j w Hj. destruct (decide (k = j)) as [->|Hne].
  - rewrite lookup_insert_eq in Hj. injection Hj as <-. exact Hv.
  - rewrite lookup_insert_ne in Hj by exact Hne. apply (Hm _ _ Hj).
Qed.

Lemma tokens_wf_issue names : forall (m : gmap (string * string) token_def) domain owner,
  map_Forall (fun k t => (td_domain t, td_name t) = k) m ->
  map_Forall (fun k t => (td_domain t, td_name t) = k)
    (foldl (fun m n => <[(domain, n) := mk_token_def domain n owner]> m) m names).
Proof.
  induction names as [|y l IH]; intros m domain owner Hm; simpl; [exact Hm|].
  apply IH, map_Forall_insert_keep; [reflexivity | exact Hm].
Qed.

Lemma writes_keep_wf db :
  (forall d, keeps_wf db (tokendb.add_domain d db))
  /\ (forall g, keeps_wf db (tokendb.add_group g db))
  /\ (forall it, keeps_wf db (tokendb.issue_tokens it db))
  /\ (forall tt, keeps_wf db (tokendb.transfer_token tt db))
  /\ (forall ug, keeps_wf db (tokendb.update_group ug db))
  /\ (forall ud, keeps_wf db (tokendb.update_domain ud db))
  /\ (forall a, keeps_wf db (tokendb.add_account a db))
  /\ (forall ua, keeps_wf db (tokendb.update_account ua db)).
Proof.
  unfold keeps_wf, store_wf, domains_wf, groups_wf, tokens_wf, accounts_wf.
  repeat split; simpl; try tauto;
    match goal with H : _ /\ _ |- _ => destruct H as (Hd & Hg & Ht & Ha) end.
  - apply map_Forall_insert_keep; [reflexivity | exact Hd].
  - apply map_Forall_insert_keep; [reflexivity | exact Hg].
  - apply tokens_wf_issue, Ht.
  - apply map_Forall_alter_keep; [|exact Ht]. intros v Hv. exact Hv.
  - apply map_Forall_alter_keep; [|exact Hg]. intros v Hv. exact Hv.
  - apply map_Forall_alter_keep; [|exact Hd]. intros v Hv. exact Hv.
  - apply map_Forall_insert_keep; [reflexivity | exact Ha].
  - apply map_Forall_alter_keep; [|exact Ha]. intros v Hv. exact Hv.
Qed.

(** X15.  If every record of the store is filed under its own key (domains
    under their name, groups under their id, tokens under domain and name,
    accounts under their name), it is still so after any action, whatever
    its outcome. *)
Theorem handlers_keep_store_wf act db r db' :
  store_wf db ->
  apply_action system_account_name from_group_key context act db = (r, db') ->
  store_wf db'.
Proof.
  intros Hwf E. revert Hwf. change (keeps_wf db db'). revert r db' E.
  change (steps_at keeps_wf (apply_action system_account_name from_group_key context act) db).
  assert (Hrefl : forall db, keeps_wf db db) by (intros ? H; exact H).
  assert (Htrans : forall db1 db2 db3, keeps_wf db1 db2 -> keeps_wf db2 db3 -> keeps_wf db1 db3)
    by (unfold keeps_wf; auto).
  destruct act; simpl;
    [ unfold apply_evt_newdomain | unfold apply_evt_issuetoken | unfold apply_evt_transfer
    | unfold apply_evt_updategroup | unfold apply_evt_updatedomain
    | unfold apply_evt_newaccount | unfold apply_evt_updateowner
    | unfold apply_evt_transferevt ];
    through_checks Hrefl.
  all: try (apply steps_perform; apply writes_keep_wf).
  - apply (steps_bind_perform _ Htrans); [apply writes_keep_wf|].
    apply (steps_for_each_perform _ Hrefl Htrans). intros; apply writes_keep_wf.
  - apply (steps_bind_perform _ Htrans); [apply writes_keep_wf|].
    apply steps_perform, writes_keep_wf.
Qed.

Lemma accounts_evolve_refl bf ofx db : accounts_evolve bf ofx db db.
Proof. intros n a Ha. exists a. tauto. Qed.

Lemma accounts_evolve_trans bf ofx db1 db2 db3 :
  accounts_evolve bf ofx db1 db2 -> accounts_evolve bf ofx db2 db3 ->
  accounts_evolve bf ofx db1 db3.
Proof.
  intros H12 H23 n a Ha.
  destruct (H12 n a Ha) as (a2 & Ha2 & Hn & Hc & Hf & Hb & Ho).
  destruct (H23 n a2 Ha2) as (a3 & Ha3 & Hn' & Hc' & Hf' & Hb' & Ho').
  exists a3. repeat split; try congruence.
  - intros Hbf. rewrite (Hb' Hbf). apply Hb, Hbf.
  - intros Hof. rewrite (Ho' Hof). apply Ho, Hof.
Qed.

Lemma accounts_evolve_same bf ofx db db' :
  db_accounts db' = db_accounts db -> accounts_evolve bf ofx db db'.
Proof. intros E n a Ha. exists a. rewrite E. tauto. Qed.

Lemma accounts_evolve_add bf ofx a db :
  db_accounts db !! ad_name a = None ->
  accounts_evolve bf ofx db (tokendb.add_account a db).
Proof.
  intros Hfresh n b Hb. exists b. simpl.
  rewrite lookup_insert_ne by congruence. tauto.
Qed.

Lemma accounts_evolve_update (bf ofx : bool) ua db :
  (bf = true -> ua_balance ua = None) ->
  (ofx = true -> ua_owner ua = None) ->
  ua_frozen_balance ua = None ->
  accounts_evolve bf ofx db (tokendb.update_account ua db).
Proof.
  intros Hbal Hown Hfrozen n a Ha. simpl.
  destruct (decide (ua_name ua = n)) as [->|Hne].
  - rewrite lookup_alter_eq, Ha. simpl. eexists. split; [reflexivity|]. simpl.
    rewrite Hfrozen. repeat split.
    + intros Hbf. rewrite (Hbal Hbf). reflexivity.
    + intros Hof. rewrite (Hown Hof). reflexivity.
  - rewrite lookup_alter_ne by exact Hne. exists a. tauto.
Qed.

(** X16.  Whatever the action and its outcome, every account that was in
    the store is still there with the same name, creator and frozen
    balance.  Its balance is the same unless the action is a [transferevt],
    and its owner is the same unless the action is an [updateowner]: no
    other handler touches them. *)
Theorem account_fields_change_only_by_their_action act db r db' :
  apply_action system_account_name from_group_key context act db = (r, db') ->
  accounts_evolve (negb (is_transferevt act)) (negb (is_updateowner act)) db db'.
Proof.
  revert r db'.
  change (steps_at (accounts_evolve (negb (is_transferevt act)) (negb (is_updateowner act)))
            (apply_action system_account_name from_group_key context act) db).
  pose proof (accounts_evolve_refl (negb (is_transferevt act)) (negb (is_updateowner act)))
    as Hrefl.
  pose proof (accounts_evolve_trans (negb (is_transferevt act)) (negb (is_updateowner act)))
    as Htrans.
  destruct act; simpl in *;
    [ unfold apply_evt_newdomain | unfold apply_evt_issuetoken | unfold apply_evt_transfer
    | unfold apply_evt_updategroup | unfold apply_evt_updatedomain
    | unfold apply_evt_newaccount | unfold apply_evt_updateowner
    | unfold apply_evt_transferevt ];
    through_checks Hrefl.
  all: try (apply steps_perform, accounts_evolve_same; reflexivity).
  - apply (steps_bind_perform _ Htrans); [apply accounts_evolve_same; reflexivity|].
    apply (steps_for_each_perform _ Hrefl Htrans).
    intros; apply accounts_evolve_same; reflexivity.
  - apply steps_perform, accounts_evolve_add. simpl.
    apply negb_bool_decide_is_Some. assumption.
  - apply steps_perform, accounts_evolve_update; simpl; [reflexivity | discriminate | reflexivity].
  - apply (steps_bind_perform _ Htrans);
      [apply accounts_evolve_update; simpl; [discriminate | reflexivity | reflexivity]|].
    apply steps_perform, accounts_evolve_update; simpl; [discriminate | reflexivity | reflexivity].
Qed.




End Invariants.

Section Conservation.

Variable context : apply_context.

(** X18.  With the checked helpers, a successful [transferevt] between two
    different accounts leaves the sum of their two balances as it was,
    provided the credited balance stays within [int64_t]: what one side
    loses the other gains. *)
Theorem transferevt_conserves_between_accounts teact db db' fb tb :
  accounts_wf db ->
  te_from teact <> te_to teact ->
  stored_balance db (te_from teact) = Some fb ->
  stored_balance db (te_to teact) = Some tb ->
  in_int64 fb = true ->
  in_int64 (tb + 2 * amount (te_amount teact)) = true ->
  succeeds (apply_evt_transferevt context teact) db db' ->
  exists fb' tb',
    stored_balance db' (te_from teact) = Some fb'
    /\ stored_balance db' (te_to teact) = Some tb'
    /\ fb' + tb' = fb + tb.
Proof.
  intros Hwf Hne Hfb Htb Hfr Htr Hs.
  apply transferevt_succeeds in Hs
    as (facc & tacc & _ & Hf & Ht & [Hpos Hbal] & Hr1 & Hr2 & ->).
  unfold stored_balance in Hfb, Htb. rewrite Hf in Hfb. rewrite Ht in Htb.
  simpl in Hfb, Htb. injection Hfb as Hfb. injection Htb as Htb.
  destruct (transferevt_result_balances teact facc tacc
              (test_sub (amount (ad_balance facc)) (amount (te_amount teact))
                 (amount (ad_balance facc))).2
              (test_add (amount (ad_balance tacc)) (amount (te_amount teact))
                 (amount (ad_balance tacc))).2 db Hwf Hf Ht) as [Hto Hfrom].
  rewrite Hto, (Hfrom Hne). eexists _, _. split; [reflexivity|]. split; [reflexivity|].
  simpl in *. rewrite Hfb, Htb in *.
  set (amt := amount (te_amount teact)) in *.
  rewrite (wrap_int64_small (fb - amt)) by exact Hr1.
  rewrite (wrap_int64_small (tb + amt)) by exact Hr2.
  replace (tb + amt + amt) with (tb + 2 * amt) by lia.
  rewrite (wrap_int64_small (tb + 2 * amt)) by exact Htr.
  apply in_int64_range in Hfr, Hr1, Hr2.
  rewrite wrap_int64_small; [lia|]. apply in_int64_range. lia.
Qed.

End Conservation.

(** ** More on the validators *)

Section Validators.

(** X19.  A permission that [validate] accepts has its groups in strictly
    descending order of id, without a repeated id and without a zero
    weight, and the weights add up to at least the threshold; this holds
    even when the 32-bit total wraps, because the wrapped total is never
    larger than the sum. *)
Theorem accepted_permission_is_valid p :
  Forall is_weight (group_weights p) ->
  internal.validate_permission p = true ->
  strictly_descending (group_ids p)
  /\ NoDup (group_ids p)
  /\ Forall (fun w => w <> 0) (group_weights p)
  /\ pd_threshold p <= sum_weights (group_weights p).
Proof.
  intros Hw. rewrite validate_permission_formula, !andb_true_iff, Z.leb_le.
  intros [[Hd Hz] Hle]. apply descendingb_spec in Hd.
  pose proof (sum_weights_bound _ Hw) as [Hnn _].
  assert (uint32 (sum_weights (group_weights p)) <= sum_weights (group_weights p))
    by (unfold uint32; apply Z.mod_le; lia).
  split; [exact Hd|]. split; [apply strictly_descending_NoDup, Hd|]. split; [|lia].
  apply Forall_forall. intros w Hin ->.
  apply (nonzero_weights_true _ Hz). apply Exists_exists. exists 0. split; [exact Hin | reflexivity].
Qed.

(** X20.  A group definition that [validate] accepts, be it an inline group
    or an [updategroup], has a non-zero threshold, member keys in strictly
    descending order without a repeated key or a zero weight, weights that
    add up to at least the threshold, and therefore at least one key. *)
Theorem accepted_group_is_valid {T} `{WeightedKeys T} (g : T) :
  0 <= threshold_of g ->
  Forall is_weight (member_weights (keys_of g)) ->
  internal.validate_group g = true ->
  0 < threshold_of g
  /\ strictly_descending (member_keys (keys_of g))
  /\ NoDup (member_keys (keys_of g))
  /\ Forall (fun w => w <> 0) (member_weights (keys_of g))
  /\ threshold_of g <= sum_weights (member_weights (keys_of g))
  /\ keys_of g <> [].
Proof.
  intros Ht Hw.
  rewrite validate_group_formula, !andb_true_iff, negb_true_iff, Z.eqb_neq, Z.leb_le.
  intros [Hne [[Hd Hz] Hle]]. apply descendingb_spec in Hd.
  pose proof (sum_weights_bound _ Hw) as [Hnn _].
  assert (uint32 (sum_weights (member_weights (keys_of g)))
          <= sum_weights (member_weights (keys_of g)))
    by (unfold uint32; apply Z.mod_le; lia).
  split; [lia|]. split; [exact Hd|]. split; [apply strictly_descending_NoDup, Hd|].
  split; [|split; [lia|]].
  - apply Forall_forall. intros w Hin ->.
    apply (nonzero_weights_true _ Hz). apply Exists_exists. exists 0.
    split; [exact Hin | reflexivity].
  - intros Hk. rewrite Hk in Hle. change (threshold_of g <= 0) in Hle. lia.
Qed.

(** X21.  With at most 65537 groups the 32-bit total cannot wrap, and
    [validate] decides validity exactly: it rejects a permission if and only
    if its groups are out of strictly descending order, repeat an id, have a
    zero weight, or weigh less than the threshold in total. *)
Theorem validate_permission_decides_up_to_65537_groups p :
  Forall is_weight (group_weights p) ->
  Z.of_nat (length (pd_groups p)) <= 65537 ->
  (internal.validate_permission p = false <-> permission_invalid p)
  /\ (internal.validate_permission p = true <-> ~ permission_invalid p).
Proof.
  intros Hw Hlen.
  assert (Hiff : internal.validate_permission p = false <-> permission_invalid p).
  { apply validate_permission_exact.
    pose proof (sum_weights_bound _ Hw) as Hb.
    unfold group_weights in Hb. rewrite length_map in Hb.
    unfold group_weights. change (2 ^ 32) with 4294967296. lia. }
  split; [exact Hiff|]. split.
  - intros Ht Hinv. apply Hiff in Hinv. congruence.
  - intros Hn. apply not_false_iff_true. intros Hf. apply Hn, Hiff, Hf.
Qed.

(** X22.  The same for groups: with at most 65537 member keys, [validate]
    rejects a group definition if and only if its threshold is zero or its
    keys are out of strictly descending order, repeat a key, have a zero
    weight, or weigh less than the threshold in total. *)
Theorem validate_group_decides_up_to_65537_keys {T} `{WeightedKeys T} (g : T) :
  Forall is_weight (member_weights (keys_of g)) ->
  Z.of_nat (length (keys_of g)) <= 65537 ->
  (internal.validate_group g = false <-> group_invalid g)
  /\ (internal.validate_group g = true <-> ~ group_invalid g).
Proof.
  intros Hw Hlen.
  assert (Hiff : internal.validate_group g = false <-> group_invalid g).
  { apply validate_group_exact.
    pose proof (sum_weights_bound _ Hw) as Hb.
    unfold member_weights in Hb. rewrite length_map in Hb.
    unfold member_weights. change (2 ^ 32) with 4294967296. lia. }
  split; [exact Hiff|]. split.
  - intros Ht Hinv. apply Hiff in Hinv. congruence.
  - intros Hn. apply not_false_iff_true. intros Hf. apply Hn, Hiff, Hf.
Qed.

Lemma strictly_descending_lookup l : forall i j x y,
  strictly_descending l -> l !! i = Some x -> l !! j = Some y -> (i < j)%nat -> y < x.
Proof.
  unfold strictly_descending. induction l as [|a l IH]; intros i j x y Hs Hi Hj Hij.
  - discriminate.
  - apply StronglySorted_inv in Hs as [Hs Hall].
    destruct j as [|j]; [lia|]. simpl in Hj. destruct i as [|i].
    + simpl in Hi. injection Hi as <-. rewrite Forall_forall in Hall.
      apply Hall. apply list_elem_of_lookup. eauto.
    + simpl in Hi. apply (IH i j); [assumption.. | lia].
Qed.

(** X23.  In a permission that [validate] accepts, the owner group (the
    empty id) can only be the last entry, since ids are unsigned and must
    strictly descend. *)
Theorem owner_group_is_last p i g :
  Forall (fun id => 0 <= id) (group_ids p) ->
  internal.validate_permission p = true ->
  pd_groups p !! i = Some g ->
  gw_id g = 0 ->
  S i = length (pd_groups p).
Proof.
  intros Hnn. rewrite validate_permission_formula, !andb_true_iff.
  intros [[Hd _] _] Hi Hid. apply descendingb_spec in Hd.
  unfold strictly_descending, group_ids in *.
  apply lookup_lt_Some in Hi as Hlt.
  destruct (decide (S i = length (pd_groups p))) as [E|Hne]; [exact E|]. exfalso.
  assert (Hnext : is_Some (pd_groups p !! S i)) by (apply lookup_lt_is_Some; lia).
  destruct Hnext as [g' Hg'].
  assert (Hlt' : gw_id g' < gw_id g).
  { apply (strictly_descending_lookup (map gw_id (pd_groups p)) i (S i));
      [exact Hd | | | lia].
    - rewrite list_lookup_fmap, Hi. reflexivity.
    - rewrite list_lookup_fmap, Hg'. reflexivity. }
  rewrite Forall_forall in Hnn. specialize (Hnn (gw_id g')).
  assert (0 <= gw_id g').
  { apply Hnn. apply list_elem_of_fmap. exists g'. split; [reflexivity|].
    apply list_elem_of_lookup. eauto. }
  lia.
Qed.

End Validators.

(** ** Created records can be used *)

Section Compositions.

Variable from_group_key : public_key_type -> group_id.
Variable context : apply_context.

Lemma add_groups_keep_group l db id :
  in_store db id ->
  in_store (foldl (fun db g => tokendb.add_group g db) db l) id.
Proof.
  unfold in_store. revert db. induction l as [|g l IH]; intros db Hid; simpl; [exact Hid|].
  apply IH. simpl. destruct (decide (gd_id g = id)) as [->|Hne].
  - rewrite lookup_insert_eq. eauto.
  - rewrite lookup_insert_ne by exact Hne. exact Hid.
Qed.

(** X24.  After a successful [newdomain], every group that one of the three
    permissions of the domain refers to, other than the owner group, is in
    the store: it was there before or it was one of the inline groups that
    the handler added. *)
Theorem newdomain_referenced_groups_exist ndact db db' p g :
  succeeds (apply_evt_newdomain from_group_key context ndact) db db' ->
  p = nd_issue ndact \/ p = nd_transfer ndact \/ p = nd_manage ndact ->
  g ∈ pd_groups p ->
  gw_id g <> 0 ->
  in_store db' (gw_id g).
Proof.
  intros Hs Hp Hg Hid.
  apply newdomain_succeeds in Hs as (_ & Hi & Ht & Hm & ->).
  assert (Hacc : exists allowed, group_accepted (nd_groups ndact) allowed db g).
  { unfold permission_resolved in *.
    destruct Hp as [-> | [-> | ->]]; eexists;
      [eapply (proj1 (Forall_forall _ _) Hi) | eapply (proj1 (Forall_forall _ _) Ht)
      | eapply (proj1 (Forall_forall _ _) Hm)]; exact Hg. }
  destruct Hacc as (allowed & _ & Hone).
  destruct (Hone Hid) as [[Hstore _] | [_ [gd [Hin Hgd]]]]; unfold newdomain_result.
  - apply add_groups_keep_group. exact Hstore.
  - destruct (add_groups_lookup (nd_groups ndact)
                (tokendb.add_domain (domain_of context ndact) db) gd Hin)
      as (g' & _ & _ & Hlook).
    unfold in_store. rewrite <- Hgd, Hlook. eauto.
Qed.

Lemma issue_tokens_lookup_exact names :
  forall (m : gmap (string * string) token_def) domain owner n,
  (n ∈ names \/ m !! (domain, n) = Some (mk_token_def domain n owner)) ->
  foldl (fun m n => <[(domain, n) := mk_token_def domain n owner]> m) m names !! (domain, n)
  = Some (mk_token_def domain n owner).
Proof.
  induction names as [|x names IH]; intros m domain owner n Hn; simpl.
  - destruct Hn as [Hn|Hn]; [inversion Hn | exact Hn].
  - apply IH. destruct (decide (n ∈ names)) as [Hlater|Hlast]; [left; exact Hlater|].
    right. destruct (decide (x = n)) as [->|Hne].
    + apply lookup_insert_eq.
    + rewrite lookup_insert_ne by congruence.
      destruct Hn as [Hn|Hn]; [|exact Hn].
      apply elem_of_cons in Hn as [->|Hn]; [congruence | contradiction].
Qed.

Lemma transfer_token_tokens tt db :
  db_tokens (tokendb.transfer_token tt db)
  = alter (fun t => mk_token_def (td_domain t) (td_name t) (tt_to tt))
      (tt_domain tt, tt_name tt) (db_tokens db).
Proof. reflexivity. Qed.

(** X25.  A token that a successful [issuetoken] has just issued belongs to
    the owner of the action, and an authorized [transfer] of that token then
    succeeds and makes the new owner list its owner. *)
Theorem issued_token_can_be_transferred context' itact ttact db db1 :
  succeeds (apply_evt_issuetoken context itact) db db1 ->
  tt_domain ttact = it_domain itact ->
  tt_name ttact ∈ it_names itact ->
  has_authorized context' (tt_domain ttact) (key_of_name (tt_name ttact)) = true ->
  td_owner <$> db_tokens db1 !! (tt_domain ttact, tt_name ttact) = Some (it_owner itact)
  /\ exists db2,
       succeeds (apply_evt_transfer context' ttact) db1 db2
       /\ td_owner <$> db_tokens db2 !! (tt_domain ttact, tt_name ttact) = Some (tt_to ttact).
Proof.
  intros Hs Hdomain Hname Hauth.
  apply succeeds_unit in Hs. unfold apply_evt_issuetoken in Hs.
  apply bind_assert_ok in Hs as [_ Hs]. rewrite bind_query in Hs.
  apply bind_assert_ok in Hs as [_ Hs].
  apply bind_assert_ok in Hs as [_ Hs].
  apply for_each_check_bind in Hs as [_ Hs];
    [|intros ?; apply readonly_bind; [apply readonly_query | intros; apply readonly_assert]].
  apply perform_ok in Hs. subst db1.
  assert (Hlook : db_tokens (tokendb.issue_tokens itact db) !! (tt_domain ttact, tt_name ttact)
                  = Some (mk_token_def (it_domain itact) (tt_name ttact) (it_owner itact))).
  { unfold tokendb.issue_tokens. simpl. rewrite Hdomain.
    apply issue_tokens_lookup_exact. left. exact Hname. }
  split; [rewrite Hlook; reflexivity|].
  exists (tokendb.transfer_token ttact (tokendb.issue_tokens itact db)). split.
  - apply succeeds_unit. unfold apply_evt_transfer.
    assert (Hex : tokendb.exists_token (tt_domain ttact) (tt_name ttact)
                    (tokendb.issue_tokens itact db) = true).
    { unfold tokendb.exists_token. apply bool_decide_eq_true_2. rewrite Hlook. eauto. }
    rewrite Hauth, bind_assert_true, bind_query, Hex, bind_assert_true. reflexivity.
  - rewrite transfer_token_tokens, lookup_alter_eq, Hlook. reflexivity.
Qed.

End Compositions.

(** ** The theorems on concrete ledgers *)

Example validate_permission_samples :
  internal.validate_permission perm_ok = true
  /\ internal.validate_permission perm_ascending = false
  /\ internal.validate_permission perm_repeated = false
  /\ internal.validate_permission perm_weightless = false
  /\ internal.validate_permission perm_unreachable = false.
Proof. repeat split; reflexivity. Qed.

Example validate_group_samples :
  internal.validate_group (sample_group 5 9) = true
  /\ internal.validate_group (mk_group_def 11 5 0 [mk_key_weight 9 1]) = false
  /\ internal.validate_group (mk_updategroup 11 2 [mk_key_weight 9 1; mk_key_weight 9 1]) = false
  /\ internal.validate_group (mk_updategroup 11 2 [mk_key_weight 9 1; mk_key_weight 8 1]) = true.
Proof. repeat split; reflexivity. Qed.

Lemma two_accounts_wf : accounts_wf two_accounts.
Proof. unfold accounts_wf. apply (bool_decide_unpack _). vm_compute. exact I. Defined.

(** Paying 100 from "alice" to "bob", who hold 10000 each, leaves "alice"
    with 9800 and "bob" with 10200. *)
Lemma transferevt_applies_amount_twice_at_pay_bob :
  succeeds (apply_evt_transferevt permissive_context pay_bob) two_accounts after_pay_bob
  /\ stored_balance after_pay_bob "alice" = Some 9800
  /\ stored_balance after_pay_bob "bob" = Some 10200.
Proof.
  assert (Hs : succeeds (apply_evt_transferevt permissive_context pay_bob)
                 two_accounts after_pay_bob).
  { exists tt. vm_compute. reflexivity. }
  split; [exact Hs|].
  assert (Hne : te_from pay_bob <> te_to pay_bob) by discriminate.
  destruct (transferevt_applies_amount_twice permissive_context pay_bob two_accounts
              after_pay_bob 10000 10000 two_accounts_wf Hne eq_refl eq_refl eq_refl Hs)
    as (Hfrom & Hto & _).
  split; [exact Hfrom | exact Hto].
Defined.

(** Paying 100 from "alice" to herself leaves her with 10200 instead of
    10000. *)
Lemma transferevt_to_self_creates_value_at_pay_self :
  succeeds (apply_evt_transferevt permissive_context pay_self) two_accounts after_pay_self
  /\ stored_balance two_accounts "alice" = Some 10000
  /\ stored_balance after_pay_self "alice" = Some 10200.
Proof.
  assert (Hs : succeeds (apply_evt_transferevt permissive_context pay_self)
                 two_accounts after_pay_self).
  { exists tt. vm_compute. reflexivity. }
  split; [exact Hs|]. split; [reflexivity|].
  destruct (transferevt_to_self_creates_value permissive_context pay_self two_accounts
              after_pay_self 10000 two_accounts_wf eq_refl eq_refl eq_refl Hs)
    as (Hbal & _).
  exact Hbal.
Defined.

(** An overdraft is rejected and the ledger is the one before. *)
Lemma failed_action_writes_nothing_at_overdraft :
  apply_action "evt" sample_group_key permissive_context (act_transferevt overdraft) two_accounts
  = (Err (action_validate_exception "Account ${name} don't have enough balance left"),
     after_overdraft)
  /\ after_overdraft = two_accounts.
Proof.
  assert (Hf : apply_action "evt" sample_group_key permissive_context
                 (act_transferevt overdraft) two_accounts
               = (Err (action_validate_exception
                         "Account ${name} don't have enough balance left"),
                  after_overdraft)).
  { vm_compute. reflexivity. }
  split; [exact Hf|].
  exact (proj1 (proj1 (failed_action_writes_nothing "evt" sample_group_key permissive_context
                         (act_transferevt overdraft) overdraft account_def_default
                         account_def_default two_accounts) _ _ Hf)).
Defined.

(** Creating "carol" and reading her back. *)
Lemma newaccount_then_read_at_carol :
  succeeds (apply_evt_newaccount "evt" permissive_context new_carol) two_accounts after_new_carol
  /\ tokendb.read_account "carol" after_new_carol
     = Some (mk_account_def "carol" "evt" (mk_asset 10000) (mk_asset 0) [5]).
Proof.
  assert (Hs : succeeds (apply_evt_newaccount "evt" permissive_context new_carol)
                 two_accounts after_new_carol).
  { exists tt. vm_compute. reflexivity. }
  split; [exact Hs|].
  destruct (newaccount_then_read "evt" permissive_context new_carol two_accounts
              after_new_carol Hs)
    as ([n c b f o] & Hread & Hn & Hb & Hf & Hc & Ho & _).
  simpl in Hn, Hb, Hf, Hc, Ho. subst n c b f o. exact Hread.
Defined.

(** Creating "d1": the domain first, then both inline groups, the second
    of which no permission mentions. *)
Lemma newdomain_adds_domain_then_groups_at_d1 :
  succeeds (apply_evt_newdomain sample_group_key permissive_context create_d1)
    empty_database after_create_d1
  /\ db_journal after_create_d1
     = [w_add_domain (domain_of permissive_context create_d1);
        w_add_group (sample_group 5 9); w_add_group (sample_group 6 8)]
  /\ db_groups after_create_d1 !! sample_group_key 6 = Some (sample_group 6 8).
Proof.
  assert (Hs : succeeds (apply_evt_newdomain sample_group_key permissive_context create_d1)
                 empty_database after_create_d1).
  { exists tt. vm_compute. reflexivity. }
  split; [exact Hs|].
  destruct (newdomain_adds_domain_then_groups sample_group_key permissive_context create_d1
              empty_database after_create_d1 Hs)
    as (Hj & _ & _ & Hg).
  split; [exact Hj|].
  apply (Hg ltac:(apply (bool_decide_unpack _); vm_compute; exact I) (sample_group 6 8)).
  right; left.
Defined.

(** Issuing no token in "d1". *)
Lemma issuetoken_empty_batch_at_d1 :
  is_Some (db_domains d1_only !! "d1")
  /\ exists db',
       apply_evt_issuetoken permissive_context issue_nothing d1_only = (Ok tt, db')
       /\ db_journal db' = db_journal d1_only ++ [w_issue_tokens issue_nothing]
       /\ db_tokens db' = ∅.
Proof.
  assert (Hdom : is_Some (db_domains d1_only !! "d1")).
  { eexists. vm_compute. reflexivity. }
  split; [exact Hdom|].
  assert (Hown : it_owner issue_nothing <> []) by discriminate.
  destruct (issuetoken_empty_batch permissive_context issue_nothing d1_only
              eq_refl eq_refl Hdom Hown)
    as (db' & Hrun & Hj & Ht & _).
  exists db'. split; [exact Hrun|]. split; [exact Hj | exact Ht].
Defined.

(** With an oracle that authorizes the scope kind "domain" and nothing
    else, [updatedomain] on "d1" stops at its authorization check; with an
    oracle that authorizes the key "manage" and nothing else, it goes
    through.  So the scope of [updatedomain] is not ("domain", name). *)
Lemma updatedomain_scope_is_not_domain :
  has_authorized domain_scope_context "domain" (key_of_name (ud_name touch_d1)) = true
  /\ stopped_at_authorization
       (apply_evt_updatedomain sample_group_key domain_scope_context touch_d1) d1_only
  /\ has_authorized manage_key_context "domain" (key_of_name (ud_name touch_d1)) = false
  /\ succeeds (apply_evt_updatedomain sample_group_key manage_key_context touch_d1) d1_only
       (tokendb.update_domain touch_d1 d1_only)
  /\ ~ (forall from_group_key context udact db,
          ~ stopped_at_authorization (apply_evt_updatedomain from_group_key context udact) db
          <-> has_authorized context "domain" (key_of_name (ud_name udact)) = true).
Proof.
  assert (Hstop : stopped_at_authorization
                    (apply_evt_updatedomain sample_group_key domain_scope_context touch_d1)
                    d1_only).
  { vm_compute. reflexivity. }
  split; [reflexivity|]. split; [exact Hstop|]. split; [reflexivity|]. split.
  - exists tt. vm_compute. reflexivity.
  - intros Hclaim.
    apply (Hclaim sample_group_key domain_scope_context touch_d1 d1_only); [reflexivity|].
    exact Hstop.
Qed.

(** The checked addition passes when "bob" is 100 short of the largest
    balance and receives 100, and the second addition then wraps: "bob"
    ends up with a negative balance. *)
Example transferevt_credit_wraps :
  exists db',
    succeeds (apply_evt_transferevt permissive_context pay_bob) rich_bob db'
    /\ stored_balance rich_bob "bob" = Some 9223372036854775707
    /\ stored_balance db' "bob" = Some (-9223372036854775709)
    /\ stored_balance db' "alice" = Some 9800.
Proof.
  eexists. split; [exists tt; vm_compute; reflexivity|].
  split; [reflexivity|]. split; vm_compute; reflexivity.
Qed.

(** ** The further properties on concrete ledgers *)

Lemma newdomain_existing_name_rejected_at_d1 :
  is_Some (db_domains d1_only !! "d1")
  /\ apply_evt_newdomain sample_group_key permissive_context create_d1 d1_only
     = (Err (action_validate_exception "Domain ${name} already existed"), d1_only).
Proof.
  assert (Hdom : is_Some (db_domains d1_only !! nd_name create_d1)).
  { eexists. vm_compute. reflexivity. }
  split; [exact Hdom|].
  exact (newdomain_existing_name_rejected sample_group_key permissive_context create_d1
           d1_only eq_refl Hdom).
Defined.

Lemma newdomain_twice_rejected_at_d1 :
  succeeds (apply_evt_newdomain sample_group_key permissive_context create_d1)
    empty_database after_create_d1
  /\ apply_evt_newdomain sample_group_key domain_scope_context create_d1 after_create_d1
     = (Err (action_validate_exception "Domain ${name} already existed"), after_create_d1).
Proof.
  assert (Hs : succeeds (apply_evt_newdomain sample_group_key permissive_context create_d1)
                 empty_database after_create_d1).
  { exists tt. vm_compute. reflexivity. }
  split; [exact Hs|].
  exact (newdomain_twice_rejected sample_group_key permissive_context domain_scope_context
           create_d1 create_d1 empty_database after_create_d1 Hs eq_refl eq_refl).
Defined.

Lemma newaccount_twice_rejected_at_carol :
  succeeds (apply_evt_newaccount "evt" permissive_context new_carol) two_accounts
    after_new_carol
  /\ apply_evt_newaccount "evt" permissive_context (mk_newaccount "carol" [6]) after_new_carol
     = (Err (action_validate_exception "Account ${name} already existed"), after_new_carol).
Proof.
  assert (Hs : succeeds (apply_evt_newaccount "evt" permissive_context new_carol)
                 two_accounts after_new_carol).
  { exists tt. vm_compute. reflexivity. }
  split; [exact Hs|].
  exact (newaccount_twice_rejected "evt" permissive_context permissive_context new_carol
           (mk_newaccount "carol" [6]) two_accounts after_new_carol Hs eq_refl eq_refl).
Defined.

Lemma after_issue_succeeds :
  succeeds (apply_evt_issuetoken permissive_context issue_t1_t2) d1_only after_issue.
Proof. exists tt. vm_compute. reflexivity. Defined.

Lemma issuetoken_repeated_name_rejected_at_t2 :
  succeeds (apply_evt_issuetoken permissive_context issue_t1_t2) d1_only after_issue
  /\ apply_evt_issuetoken permissive_context issue_t2_t3 after_issue
     = (Err (action_validate_exception "Token ${domain}-${name} already existed"), after_issue)
  /\ db_tokens after_issue !! ("d1", "t3") = None.
Proof.
  split; [exact after_issue_succeeds|]. split; [|vm_compute; reflexivity].
  apply (issuetoken_repeated_name_rejected permissive_context permissive_context
           issue_t1_t2 issue_t2_t3 "t2" d1_only after_issue after_issue_succeeds eq_refl).
  - right; left.
  - right; left.
  - reflexivity.
  - discriminate.
Defined.

Lemma transferevt_nonpositive_amount_rejected_at_zero :
  amount (te_amount pay_nothing) <= 0
  /\ apply_evt_transferevt permissive_context pay_nothing two_accounts
     = (Err (action_validate_exception "Transfer amount must be positive"), two_accounts).
Proof.
  assert (Hamt : amount (te_amount pay_nothing) <= 0) by (simpl; lia).
  split; [exact Hamt|].
  apply (transferevt_nonpositive_amount_rejected permissive_context pay_nothing two_accounts
           eq_refl); [| | exact Hamt]; eexists; vm_compute; reflexivity.
Defined.

Lemma transferevt_missing_account_rejected_at_zed :
  db_accounts two_accounts !! "zed" = None
  /\ apply_evt_transferevt permissive_context pay_zed two_accounts
     = (Err (action_validate_exception "Account ${name} don't exist"), two_accounts).
Proof.
  assert (Hzed : db_accounts two_accounts !! te_to pay_zed = None) by (vm_compute; reflexivity).
  split; [exact Hzed|].
  exact (transferevt_missing_account_rejected permissive_context pay_zed two_accounts
           eq_refl (or_intror Hzed)).
Defined.

Lemma pay_bob_runs :
  apply_action "evt" sample_group_key permissive_context (act_transferevt pay_bob) two_accounts
  = (Ok tt, after_pay_bob).
Proof. vm_compute. reflexivity. Defined.


Lemma alice_to_2_runs :
  apply_action "evt" sample_group_key permissive_context (act_updateowner alice_to_2)
    two_accounts
  = (Ok tt, after_alice_to_2).
Proof. vm_compute. reflexivity. Defined.

Lemma handlers_never_delete_at_pay_bob :
  apply_action "evt" sample_group_key permissive_context (act_transferevt pay_bob) two_accounts
  = (Ok tt, after_pay_bob)
  /\ keeps_records two_accounts after_pay_bob.
Proof.
  split; [exact pay_bob_runs|].
  exact (handlers_never_delete "evt" sample_group_key permissive_context
           (act_transferevt pay_bob) two_accounts (Ok tt) after_pay_bob pay_bob_runs).
Defined.

Lemma two_accounts_store_wf : store_wf two_accounts.
Proof.
  unfold store_wf, domains_wf, groups_wf, tokens_wf, accounts_wf.
  repeat split; apply (bool_decide_unpack _); vm_compute; exact I.
Defined.

Lemma handlers_keep_store_wf_at_alice :
  store_wf two_accounts /\ store_wf after_alice_to_2.
Proof.
  split; [exact two_accounts_store_wf|].
  exact (handlers_keep_store_wf "evt" sample_group_key permissive_context
           (act_updateowner alice_to_2) two_accounts (Ok tt) after_alice_to_2
           two_accounts_store_wf alice_to_2_runs).
Defined.

Lemma account_fields_change_only_by_their_action_at_alice :
  apply_action "evt" sample_group_key permissive_context (act_updateowner alice_to_2)
    two_accounts
  = (Ok tt, after_alice_to_2)
  /\ accounts_evolve true false two_accounts after_alice_to_2.
Proof.
  split; [exact alice_to_2_runs|].
  exact (account_fields_change_only_by_their_action "evt" sample_group_key permissive_context
           (act_updateowner alice_to_2) two_accounts (Ok tt) after_alice_to_2 alice_to_2_runs).
Defined.


Lemma transferevt_conserves_between_accounts_at_pay_bob :
  succeeds (apply_evt_transferevt permissive_context pay_bob) two_accounts after_pay_bob
  /\ exists fb' tb',
       stored_balance after_pay_bob "alice" = Some fb'
       /\ stored_balance after_pay_bob "bob" = Some tb'
       /\ fb' + tb' = 10000 + 10000.
Proof.
  assert (Hs : succeeds (apply_evt_transferevt permissive_context pay_bob)
                 two_accounts after_pay_bob).
  { exists tt. vm_compute. reflexivity. }
  split; [exact Hs|].
  assert (Hne : te_from pay_bob <> te_to pay_bob) by discriminate.
  exact (transferevt_conserves_between_accounts permissive_context pay_bob two_accounts
           after_pay_bob 10000 10000 two_accounts_wf Hne eq_refl eq_refl eq_refl eq_refl Hs).
Defined.

Lemma small_weights (l : list Z) :
  forallb (fun w => (0 <=? w) && (w <? 2 ^ 16)) l = true -> Forall is_weight l.
Proof. apply Forall_by_forallb. exact is_weight_b. Defined.

Lemma accepted_permission_is_valid_at_perm_ok :
  internal.validate_permission perm_ok = true
  /\ strictly_descending (group_ids perm_ok)
  /\ NoDup (group_ids perm_ok)
  /\ Forall (fun w => w <> 0) (group_weights perm_ok)
  /\ pd_threshold perm_ok <= sum_weights (group_weights perm_ok).
Proof.
  split; [reflexivity|].
  exact (accepted_permission_is_valid perm_ok (small_weights (group_weights perm_ok) eq_refl) eq_refl).
Defined.

Lemma accepted_group_is_valid_at_sample :
  internal.validate_group (sample_group 5 9) = true
  /\ keys_of (sample_group 5 9) <> [].
Proof.
  split; [reflexivity|].
  assert (Ht : 0 <= threshold_of (sample_group 5 9)) by (simpl; lia).
  exact (proj2 (proj2 (proj2 (proj2 (proj2
           (accepted_group_is_valid (sample_group 5 9) Ht
              (small_weights (member_weights (keys_of (sample_group 5 9))) eq_refl) eq_refl)))))).
Defined.

Lemma validate_permission_decides_at_perm_repeated :
  Z.of_nat (length (pd_groups perm_repeated)) <= 65537
  /\ (internal.validate_permission perm_repeated = false <-> permission_invalid perm_repeated).
Proof.
  assert (Hlen : Z.of_nat (length (pd_groups perm_repeated)) <= 65537) by (simpl; lia).
  split; [exact Hlen|].
  exact (proj1 (validate_permission_decides_up_to_65537_groups perm_repeated
                  (small_weights (group_weights perm_repeated) eq_refl) Hlen)).
Defined.

Lemma validate_group_decides_at_sample :
  Z.of_nat (length (keys_of (sample_group 5 9))) <= 65537
  /\ (internal.validate_group (sample_group 5 9) = true <-> ~ group_invalid (sample_group 5 9)).
Proof.
  assert (Hlen : Z.of_nat (length (keys_of (sample_group 5 9))) <= 65537) by (simpl; lia).
  split; [exact Hlen|].
  exact (proj2 (validate_group_decides_up_to_65537_keys (sample_group 5 9)
                  (small_weights (member_weights (keys_of (sample_group 5 9))) eq_refl) Hlen)).
Defined.

Lemma owner_group_is_last_at_perm :
  internal.validate_permission perm_owner_last = true
  /\ pd_groups perm_owner_last !! 1%nat = Some (mk_group_weight 0 1)
  /\ 2%nat = length (pd_groups perm_owner_last).
Proof.
  split; [reflexivity|]. split; [reflexivity|].
  apply (owner_group_is_last perm_owner_last 1 (mk_group_weight 0 1));
    [|reflexivity | reflexivity | reflexivity].
  apply (Forall_by_forallb _ (fun k => 0 <=? k)); [intros x; apply Z.leb_le | reflexivity].
Defined.

Lemma newdomain_referenced_groups_exist_at_d1 :
  succeeds (apply_evt_newdomain sample_group_key permissive_context create_d1)
    empty_database after_create_d1
  /\ in_store after_create_d1 (sample_group_key 5).
Proof.
  assert (Hs : succeeds (apply_evt_newdomain sample_group_key permissive_context create_d1)
                 empty_database after_create_d1).
  { exists tt. vm_compute. reflexivity. }
  split; [exact Hs|].
  apply (newdomain_referenced_groups_exist sample_group_key permissive_context create_d1
           empty_database after_create_d1 (nd_issue create_d1)
           (mk_group_weight (sample_group_key 5) 1) Hs).
  - left. reflexivity.
  - left.
  - discriminate.
Defined.

Lemma issued_token_can_be_transferred_at_t1 :
  succeeds (apply_evt_issuetoken permissive_context issue_t1_t2) d1_only after_issue
  /\ td_owner <$> db_tokens after_issue !! ("d1", "t1") = Some [4]
  /\ exists db2,
       succeeds (apply_evt_transfer permissive_context give_t1) after_issue db2
       /\ td_owner <$> db_tokens db2 !! ("d1", "t1") = Some [8].
Proof.
  split; [exact after_issue_succeeds|].
  apply (issued_token_can_be_transferred permissive_context permissive_context issue_t1_t2
           give_t1 d1_only after_issue after_issue_succeeds eq_refl).
  - left.
  - reflexivity.
Defined.
